(** * rust-analyzer VS Code client: hover enrichment and code-action grouping

    A shallow embedding of [editors/code/src/client.ts]: the two response
    transforms installed as language-client middleware ([provideHover] and
    [provideCodeActions]) together with the helpers they call
    ([toTrusted], [renderCommand], [renderHoverActions],
    [isCodeActionWithoutEditsAndCommands]). *)

From Stdlib Require Import ZArith String Ascii List Bool Lia DecimalString.
From stdpp Require Import base option list strings.
Import ListNotations.

Set Warnings "-register-all".

Local Open Scope string_scope.
Local Open Scope list_scope.

(** ** JavaScript values

    Protocol payloads are untyped on the TypeScript side ([any]); they are
    embedded as a small universe of JSON-like values.  Numbers are
    restricted to integers.  Objects are property lists in property order;
    reading a property returns the first binding. *)

Inductive jsval : Type :=
| JUndefined
| JNull
| JBool (b : bool)
| JNum (n : Z)
| JStr (s : string)
| JArr (elems : list jsval)
| JObj (props : list (string * jsval)).

Module JS.

(** ToBoolean. *)
Definition truthy (v : jsval) : bool :=
  match v with
  | JUndefined | JNull => false
  | JBool b => b
  | JNum n => negb (n =? 0)%Z
  | JStr s => negb (s =? "")%string
  | JArr _ | JObj _ => true
  end.

Fixpoint assoc (k : string) (props : list (string * jsval)) : jsval :=
  match props with
  | [] => JUndefined
  | (k', v) :: rest => if (k =? k')%string then v else assoc k rest
  end.

(** [v.k].  Reading a property of a primitive yields [undefined]; the
    source only reads properties of [undefined]/[null] behind a
    truthiness guard. *)
Definition get (k : string) (v : jsval) : jsval :=
  match v with
  | JObj props => assoc k props
  | _ => JUndefined
  end.

(** [v[i]] on arrays. *)
Definition index (i : nat) (v : jsval) : jsval :=
  match v with
  | JArr elems => nth i elems JUndefined
  | _ => JUndefined
  end.

(** [v === void 0]. *)
Definition is_undefined (v : jsval) : bool :=
  match v with JUndefined => true | _ => false end.

(** [Is.string] of vscode-languageclient/lib/utils/is. *)
Definition is_string (v : jsval) : bool :=
  match v with JStr _ => true | _ => false end.

(** [Is.typedArray(v, check)]: an array all of whose elements pass. *)
Definition typedArray (check : jsval -> bool) (v : jsval) : bool :=
  match v with
  | JArr elems => forallb check elems
  | _ => false
  end.

(** Values without reference identity. *)
Definition primitive (v : jsval) : bool :=
  match v with
  | JArr _ | JObj _ => false
  | _ => true
  end.

(** SameValueZero, the key comparison of [Map].  Primitives compare by
    value.  Arrays and objects compare by reference; every element of a
    decoded response is a fresh reference, so two tags taken from
    different list elements are never the same object. *)
Definition same_value_zero (a b : jsval) : bool :=
  match a, b with
  | JUndefined, JUndefined => true
  | JNull, JNull => true
  | JBool x, JBool y => Bool.eqb x y
  | JNum x, JNum y => (x =? y)%Z
  | JStr x, JStr y => (x =? y)%string
  | _, _ => false
  end.

(** [obj.k = v] on an object: overwrite the property or add it last. *)
Fixpoint set_assoc (k : string) (v : jsval) (props : list (string * jsval))
  : list (string * jsval) :=
  match props with
  | [] => [(k, v)]
  | (k', v') :: rest =>
      if (k =? k')%string then (k', v) :: rest
      else (k', v') :: set_assoc k v rest
  end.

Definition set (k : string) (v : jsval) (obj : jsval) : jsval :=
  match obj with
  | JObj props => JObj (set_assoc k v props)
  | _ => obj
  end.

(** [xs.join(sep)] on an array of strings. *)
Fixpoint join (sep : string) (xs : list string) : string :=
  match xs with
  | [] => ""
  | [x] => x
  | x :: rest => x +:+ sep +:+ join sep rest
  end.

(** *** Text encodings

    Strings are byte strings holding UTF-8. *)

Definition char (n : nat) : string := String (ascii_of_nat n) "".

Definition hex_digit (upper : bool) (d : nat) : string :=
  match d with
  | 0 => "0" | 1 => "1" | 2 => "2" | 3 => "3" | 4 => "4"
  | 5 => "5" | 6 => "6" | 7 => "7" | 8 => "8" | 9 => "9"
  | 10 => if upper then "A" else "a"
  | 11 => if upper then "B" else "b"
  | 12 => if upper then "C" else "c"
  | 13 => if upper then "D" else "d"
  | 14 => if upper then "E" else "e"
  | _ => if upper then "F" else "f"
  end.

Definition hex2 (upper : bool) (n : nat) : string :=
  hex_digit upper (n / 16) +:+ hex_digit upper (n mod 16).

(** Characters [encodeURIComponent] leaves alone: ASCII letters, digits
    and [- _ . ! ~ * ' ( )]. *)
Definition uri_unreserved (n : nat) : bool :=
  (((65 <=? n) && (n <=? 90)) || ((97 <=? n) && (n <=? 122))
   || ((48 <=? n) && (n <=? 57))
   || (n =? 45) || (n =? 95) || (n =? 46) || (n =? 33) || (n =? 126)
   || (n =? 42) || (n =? 39) || (n =? 40) || (n =? 41))%nat.

(** [encodeURIComponent]: every other byte of the UTF-8 form becomes
    [%XX] with upper-case hexadecimal digits. *)
Fixpoint encodeURIComponent (s : string) : string :=
  match s with
  | EmptyString => ""
  | String c rest =>
      let n := nat_of_ascii c in
      (if uri_unreserved n then String c "" else "%" +:+ hex2 true n)
      +:+ encodeURIComponent rest
  end.

(** The escapes of a JSON string literal. *)
Definition json_escape_char (c : ascii) : string :=
  let n := nat_of_ascii c in
  if (n =? 34)%nat then char 92 +:+ char 34
  else if (n =? 92)%nat then char 92 +:+ char 92
  else if (n =? 8)%nat then char 92 +:+ "b"
  else if (n =? 9)%nat then char 92 +:+ "t"
  else if (n =? 10)%nat then char 92 +:+ "n"
  else if (n =? 12)%nat then char 92 +:+ "f"
  else if (n =? 13)%nat then char 92 +:+ "r"
  else if (n <? 32)%nat then char 92 +:+ "u00" +:+ hex2 false n
  else String c "".

Fixpoint json_escape (s : string) : string :=
  match s with
  | EmptyString => ""
  | String c rest => json_escape_char c +:+ json_escape rest
  end.

Definition json_quote (s : string) : string :=
  char 34 +:+ json_escape s +:+ char 34.

(** *** Numbers

    A number written as the integer [n] is the double nearest to [n]. *)

Definition decimal (n : Z) : string := NilEmpty.string_of_int (Z.to_int n).

(** The double nearest to [n >= 0], ties to the even significand; [None]
    past the largest double. *)
Definition nearest_double (n : Z) : option Z :=
  let bits := (Z.log2 n + 1)%Z in
  if (bits <=? 53)%Z then Some n
  else
    let e := (bits - 53)%Z in
    let q := Z.shiftr n e in
    let r := (n - Z.shiftl q e)%Z in
    let half := Z.shiftl 1 (e - 1) in
    let q' :=
      if (half <? r)%Z || ((r =? half)%Z && Z.odd q) then (q + 1)%Z else q in
    let x := Z.shiftl q' e in
    if (2 ^ 1024 <=? x)%Z then None else Some x.

Definition rounds_to (x v : Z) : bool :=
  match nearest_double v with
  | Some y => (y =? x)%Z
  | None => false
  end.

(** The decimal with the fewest significant digits, [k] or more, that
    reads back as the double [x]; of two, the nearer one. *)
Fixpoint shortest (fuel : nat) (k x digits : Z) : Z :=
  match fuel with
  | O => x
  | S fuel' =>
      if (digits <=? k)%Z then x
      else
        let scale := (10 ^ (digits - k))%Z in
        let lo := (x / scale * scale)%Z in
        let hi := (lo + scale)%Z in
        match rounds_to x lo, rounds_to x hi with
        | true, true =>
            if (x - lo <? hi - x)%Z then lo
            else if (hi - x <? x - lo)%Z then hi
            else if Z.even (x / scale) then lo else hi
        | true, false => lo
        | false, true => hi
        | false, false => shortest fuel' (k + 1)%Z x digits
        end
  end.

Fixpoint drop_trailing_zeros (s : string) : string :=
  match s with
  | EmptyString => ""
  | String c rest =>
      let rest' := drop_trailing_zeros rest in
      if (rest' =? "")%string && (nat_of_ascii c =? 48)%nat then ""
      else String c rest'
  end.

(** Number::toString on the double nearest to [n]: all the digits up to
    21 of them, exponent form beyond. *)
Definition number_toString (n : Z) : string :=
  let sign := if (n <? 0)%Z then "-" else "" in
  match nearest_double (Z.abs n) with
  | None => sign +:+ "Infinity"
  | Some x =>
      let v := shortest 17 1 x (Z.of_nat (String.length (decimal x))) in
      let text := decimal v in
      let digits := Z.of_nat (String.length text) in
      if (digits <=? 21)%Z then sign +:+ text
      else
        match drop_trailing_zeros text with
        | String c rest =>
            sign +:+ String c (if (rest =? "")%string then "" else "." +:+ rest)
            +:+ "e+" +:+ decimal (digits - 1)
        | EmptyString => sign +:+ text
        end
  end.

(** A number prints as [null] in JSON when it is not finite. *)
Definition json_number (n : Z) : string :=
  match nearest_double (Z.abs n) with
  | Some _ => number_toString n
  | None => "null"
  end.

(** [JSON.stringify(v)]; [None] is [undefined].  An [undefined] array
    element prints as [null], an [undefined] property is left out. *)
Fixpoint stringify (v : jsval) : option string :=
  match v with
  | JUndefined => None
  | JNull => Some "null"
  | JBool b => Some (if b then "true" else "false")
  | JNum n => Some (json_number n)
  | JStr s => Some (json_quote s)
  | JArr elems =>
      Some ("[" +:+ join "," (map (fun e => default "null" (stringify e)) elems) +:+ "]")
  | JObj props =>
      Some ("{" +:+ join ","
              ((fix members (ps : list (string * jsval)) : list string :=
                  match ps with
                  | [] => []
                  | (k, x) :: rest =>
                      match stringify x with
                      | Some sx => (json_quote k +:+ ":" +:+ sx) :: members rest
                      | None => members rest
                      end
                  end) props) +:+ "}")
  end.

(** ToString of a possibly [undefined] string, as in a template
    literal or in the argument coercion of a string function. *)
Definition toString (o : option string) : string := default "undefined" o.

(** [s.includes(needle)]. *)
Definition includes (needle s : string) : bool :=
  match String.index 0 needle s with
  | Some _ => true
  | None => false
  end.

End JS.

(** ** Exceptions and promises *)

Inductive error : Type :=
| AssertionError (explanation : string)
| TransportError (reason : jsval).

(** Result of running a synchronous block that may throw. *)
Inductive outcome (A : Type) : Type :=
| Return (a : A)
| Throw (e : error).
Arguments Return {A} a.
Arguments Throw {A} e.

#[global] Instance outcome_ret : MRet outcome := fun A a => Return a.

#[global] Instance outcome_bind : MBind outcome := fun A B k m =>
  match m with
  | Return a => k a
  | Throw e => Throw e
  end.

(** A settled promise. *)
Inductive settled (A : Type) : Type :=
| Fulfilled (a : A)
| Rejected (e : error).
Arguments Fulfilled {A} a.
Arguments Rejected {A} e.

(** ** The language client's diagnostic channel *)

Inductive request_type : Type := HoverRequest | CodeActionRequest.

(** One line written by [client.logFailedRequest(type, error)]: the
    request type and the failure. *)
Record log_entry : Type := LogFailedRequest {
  request : request_type;
  failure : error
}.

(** What a middleware call leaves behind: the lines it logged and the
    promise it returned. *)
Record run (A : Type) : Type := Run {
  logged : list log_entry;
  promise : settled A
}.
Arguments Run {A} logged promise.
Arguments logged {A} r.
Arguments promise {A} r.

(** A handler that returns [a], and one whose body throws or returns. *)
Definition resolve {A} (a : A) : run A := Run [] (Fulfilled a).

Definition settle {A} (o : outcome A) : run A :=
  match o with
  | Return a => Run [] (Fulfilled a)
  | Throw e => Run [] (Rejected e)
  end.

(** [p.then(onFulfilled, onRejected)]: the handler matching the state of
    [p] runs and decides the new promise.  An exception thrown by
    [onFulfilled] is not routed to the [onRejected] of the same call. *)
Definition then_ {A B} (p : settled A)
    (onFulfilled : A -> run B) (onRejected : error -> run B) : run B :=
  match p with
  | Fulfilled a => onFulfilled a
  | Rejected e => onRejected e
  end.

(** A result that may be [null] or [undefined]. *)
Inductive nullable (A : Type) : Type :=
| IsNull
| IsUndefined
| Defined (a : A).
Arguments IsNull {A}.
Arguments IsUndefined {A}.
Arguments Defined {A} a.

(** Modelled from the spec: [assert] of [./util] is not part of the
    sources at hand; a failed assertion aborts the enclosing block with an
    assertion failure. *)
Definition assert (condition : bool) (explanation : string) : outcome unit :=
  if condition then Return tt else Throw (AssertionError explanation).

(** ** Hover *)

(** [vscode.MarkdownString]. *)
Record MarkdownString : Type := {
  value : string;
  isTrusted : option bool
}.

(** [vscode.Hover].  The protocol converter builds every content block as
    a [MarkdownString]. *)
Record Hover : Type := {
  contents : list MarkdownString;
  range : option jsval
}.

(** Modelled from the spec: [CommandLink] and [CommandLinkGroup] are
    declared in [lsp_ext], which is not part of the sources at hand; a
    link has a title, a command, an optional tooltip and a sequence of
    arguments, a group an optional title and a sequence of links. *)
Record CommandLink : Type := {
  cl_title : string;
  cl_command : string;
  cl_tooltip : option string;
  cl_arguments : list jsval
}.

Record CommandLinkGroup : Type := {
  clg_title : option string;
  clg_commands : list CommandLink
}.

Definition toTrusted (obj : MarkdownString) : MarkdownString :=
  if JS.includes "```rust" (value obj)
  then {| value := value obj; isTrusted := Some true |}
  else obj.

Definition renderCommand (cmd : CommandLink) : string :=
  "[" +:+ cl_title cmd +:+ "](command:" +:+ cl_command cmd +:+ "?"
  +:+ JS.encodeURIComponent (JS.toString (JS.stringify (JArr (cl_arguments cmd))))
  +:+ " '" +:+ JS.toString (cl_tooltip cmd) +:+ "')".

(** Truthiness of an optional string: absent and empty are both falsy. *)
Definition nonempty (o : option string) : bool :=
  match o with
  | Some s => negb (s =? "")%string
  | None => false
  end.

Definition renderHoverActions (actions : list CommandLinkGroup) : MarkdownString :=
  let text :=
    JS.join "___"
      (map (fun group =>
              (if nonempty (clg_title group)
               then JS.toString (clg_title group) +:+ " " else "")
              +:+ JS.join " | " (map renderCommand (clg_commands group)))
           actions) in
  {| value := text; isTrusted := Some true |}.

(** The hover response of the server: the protocol hover and the
    [actions] that rust-analyzer sends next to it. *)
Record HoverResult : Type := {
  hr_hover : jsval;
  hr_actions : option (list CommandLinkGroup)
}.

(** ** Code actions *)

(** A value of the [groups] map. *)
Record entry : Type := {
  index : nat;
  items : list jsval
}.

(** [Map<string, entry>] in insertion order. *)
Fixpoint Map_get (k : jsval) (m : list (jsval * entry)) : option entry :=
  match m with
  | [] => None
  | (k', e) :: rest => if JS.same_value_zero k' k then Some e else Map_get k rest
  end.

(** In-place update of the entry object that [Map_get] returned. *)
Fixpoint Map_alter (f : entry -> entry) (k : jsval) (m : list (jsval * entry))
  : list (jsval * entry) :=
  match m with
  | [] => []
  | (k', e) :: rest =>
      if JS.same_value_zero k' k then (k', f e) :: rest
      else (k', e) :: Map_alter f k rest
  end.

Definition items_push (action : jsval) (e : entry) : entry :=
  {| index := index e; items := items e ++ [action] |}.

(** The two locals the loop of [provideCodeActions] mutates. *)
Record state : Type := {
  result : list jsval;
  groups : list (jsval * entry)
}.

(** [new vscode.CodeAction(title)]. *)
Definition new_CodeAction (title : jsval) : jsval := JObj [("title", title)].

(** An object literal [{command, title, arguments}]. *)
Definition Command (command : string) (title : jsval) (arguments : list jsval) : jsval :=
  JObj [("command", JStr command); ("title", title); ("arguments", JArr arguments)].

Definition isCodeActionWithoutEditsAndCommands (Diagnostic_is : jsval -> bool)
    (candidate : jsval) : bool :=
  JS.truthy candidate && JS.is_string (JS.get "title" candidate)
  && (JS.is_undefined (JS.get "diagnostics" candidate)
      || JS.typedArray Diagnostic_is (JS.get "diagnostics" candidate))
  && (JS.is_undefined (JS.get "kind" candidate)
      || JS.is_string (JS.get "kind" candidate))
  && (JS.is_undefined (JS.get "edit" candidate)
      && JS.is_undefined (JS.get "command" candidate)).

(** The action built for a stub: its command asks for the resolution of
    [id] under the parameters of the request. *)
Definition stub_action (params item : jsval) : jsval :=
  let action := new_CodeAction (JS.get "title" item) in
  let id := JS.get "id" item in
  let resolveParams := JObj [("id", id); ("codeActionParams", params)] in
  JS.set "command"
    (Command "rust-analyzer.resolveCodeAction" (JS.get "title" item) [resolveParams])
    action.

(** The action that stands for a group of several members. *)
Definition group_action (group : jsval) (items : list jsval) : jsval :=
  let action := new_CodeAction group in
  JS.set "command"
    (Command "rust-analyzer.applyActionGroup" (JStr "")
       [JArr (map (fun item =>
                     JObj [("label", JS.get "title" item);
                           ("arguments",
                            JS.index 0 (JS.get "arguments" (JS.get "command" item)))])
                  items)])
    action.

(** Body of the second loop, over the entries of [groups]: the
    assignment [result[index] = ...].  The index was taken from
    [result.length] just before a push, so the slot exists
    ([loop_index_bound]). *)
Definition collapse (result : list jsval) (kv : jsval * entry) : list jsval :=
  let '(group, e) := kv in
  if (length (items e) =? 1)%nat
  then <[index e := JS.index 0 (JArr (items e))]> result
  else <[index e := group_action group (items e)]> result.

(** ** Semantic tokens *)

(** What the promise of an [async] function is rejected with: an [Error]
    its body threw, or the failure of the promise it awaited. *)
Inductive rejection : Type :=
| ErrorObject (message : string)
| Awaited (e : error).

Inductive async_result (A : Type) : Type :=
| Resolves (a : A)
| Rejects (r : rejection).
Arguments Resolves {A} a.
Arguments Rejects {A} r.

(** The middleware takes the settled result of [next(document, token)];
    [await] rethrows the failure of a rejected promise. *)
Definition provideDocumentSemanticTokens {A} (next : settled (nullable A))
  : async_result (nullable A) :=
  match next with
  | Rejected e => Rejects (Awaited e)
  | Fulfilled res =>
      match res with
      | IsUndefined => Rejects (ErrorObject "busy")
      | _ => Resolves res
      end
  end.

(** ** Capabilities *)

(** [a ?? b]. *)
Definition nullish_coalescing (a b : jsval) : jsval :=
  match a with
  | JUndefined | JNull => b
  | _ => a
  end.

(** [ExperimentalFeatures.fillClientCapabilities]; the result is the
    [capabilities] object after the call.  Property assignment is that of
    plain objects: [capabilities] is an object and its [experimental]
    property, when it is neither [undefined] nor [null], is an object
    ([plain_capabilities]). *)
Definition fillClientCapabilities (capabilities : jsval) : jsval :=
  let caps := nullish_coalescing (JS.get "experimental" capabilities) (JObj []) in
  let caps := JS.set "snippetTextEdit" (JBool true) caps in
  let caps := JS.set "codeActionGroup" (JBool true) caps in
  let caps := JS.set "resolveCodeAction" (JBool true) caps in
  let caps := JS.set "hoverActions" (JBool true) caps in
  JS.set "experimental" caps capabilities.

Definition plain_capabilities (capabilities : jsval) : bool :=
  match capabilities with
  | JObj _ =>
      match JS.get "experimental" capabilities with
      | JUndefined | JNull | JObj _ => true
      | _ => false
      end
  | _ => false
  end.

(** The four flags the client announces. *)
Definition experimental_flags : list string :=
  ["snippetTextEdit"; "codeActionGroup"; "resolveCodeAction"; "hoverActions"].

(** ** Characters of a text *)

Fixpoint string_forallb (p : ascii -> bool) (s : string) : bool :=
  match s with
  | EmptyString => true
  | String c rest => p c && string_forallb p rest
  end.

(** What [encodeURIComponent] can print: an unreserved character or the
    percent sign of an escape. *)
Definition uri_safe (c : ascii) : bool :=
  JS.uri_unreserved (nat_of_ascii c) || (nat_of_ascii c =? 37)%nat.

(** ** The rendering as described

    The action bar in the words of the specification: a group is its
    title and a space, when it has a title that is not empty, and its
    links joined by [" | "]; groups are joined by
    ["___"]; a link is a markup hyperlink to [command:NAME?ARGS] with
    [ARGS] the URI-escaped JSON text of the argument list, followed by the
    quoted tooltip text.  [tip] chooses the tooltip text of a link. *)

Definition described_link (tip : CommandLink -> string) (cmd : CommandLink) : string :=
  "[" +:+ cl_title cmd +:+ "](command:" +:+ cl_command cmd +:+ "?"
  +:+ JS.encodeURIComponent (default "" (JS.stringify (JArr (cl_arguments cmd))))
  +:+ " '" +:+ tip cmd +:+ "')".

(** The title and a space, for a group that has a title to show. *)
Definition described_title (group : CommandLinkGroup) : string :=
  match clg_title group with
  | Some title => if (title =? "")%string then "" else title +:+ " "
  | None => ""
  end.

Definition described_group (tip : CommandLink -> string) (group : CommandLinkGroup)
  : string :=
  described_title group
  +:+ JS.join " | " (map (described_link tip) (clg_commands group)).

Definition described_bar (tip : CommandLink -> string)
    (actions : list CommandLinkGroup) : string :=
  JS.join "___" (map (described_group tip) actions).

(** ** Stand-ins for the libraries

    Simple versions of the converters and shape checks, to run the
    transforms on concrete responses. *)

Module Sample.

Definition is_defined (v : jsval) : bool := negb (JS.is_undefined v).

Definition is_number (v : jsval) : bool :=
  match v with JNum _ => true | _ => false end.

Definition is_boolean (v : jsval) : bool :=
  match v with JBool _ => true | _ => false end.

Definition is_array (v : jsval) : bool :=
  match v with JArr _ => true | _ => false end.

Definition is_object (v : jsval) : bool :=
  match v with JObj _ => true | _ => false end.

Definition optional (check : jsval -> bool) (v : jsval) : bool :=
  JS.is_undefined v || check v.

Definition Position_is (v : jsval) : bool :=
  is_object v && is_number (JS.get "line" v) && is_number (JS.get "character" v).

Definition Range_is (v : jsval) : bool :=
  is_object v && Position_is (JS.get "start" v) && Position_is (JS.get "end" v).

Definition Diagnostic_is (v : jsval) : bool :=
  is_defined v && Range_is (JS.get "range" v) && JS.is_string (JS.get "message" v)
  && optional is_number (JS.get "severity" v)
  && optional (fun c => is_number c || JS.is_string c) (JS.get "code" v)
  && optional JS.is_string (JS.get "source" v)
  && optional is_array (JS.get "relatedInformation" v).

Definition Command_is (v : jsval) : bool :=
  is_defined v && JS.is_string (JS.get "title" v) && JS.is_string (JS.get "command" v).

Definition WorkspaceEdit_is (v : jsval) : bool :=
  JS.truthy v
  && (is_defined (JS.get "changes" v) || is_defined (JS.get "documentChanges" v))
  && optional is_array (JS.get "documentChanges" v).

(** Modelled from the spec: [lc.CodeAction.is] belongs to
    vscode-languageserver-types; a fully-specified action has a title and
    carries an edit or a command.  The parts are checked for their shape,
    as the library does. *)
Definition CodeAction_is (v : jsval) : bool :=
  JS.truthy v && JS.is_string (JS.get "title" v)
  && optional (JS.typedArray Diagnostic_is) (JS.get "diagnostics" v)
  && optional JS.is_string (JS.get "kind" v)
  && (is_defined (JS.get "edit" v) || is_defined (JS.get "command" v))
  && optional Command_is (JS.get "command" v)
  && optional is_boolean (JS.get "isPreferred" v)
  && optional WorkspaceEdit_is (JS.get "edit" v).

Definition asCodeAction (v : jsval) : jsval := v.

Definition asTextDocumentIdentifier (uri : string) : jsval := JObj [("uri", JStr uri)].

Definition asPosition (p : Z * Z) : jsval :=
  JObj [("line", JNum (fst p)); ("character", JNum (snd p))].

Definition asRange (r : (Z * Z) * (Z * Z)) : jsval :=
  JObj [("start", asPosition (fst r)); ("end", asPosition (snd r))].

Definition asCodeActionContext (diagnostics : list jsval) : jsval :=
  JObj [("diagnostics", JArr diagnostics)].

Definition asMarkdown (v : jsval) : MarkdownString :=
  {| value := match JS.get "value" v with JStr s => s | _ => "" end;
     isTrusted := None |}.

Definition asHover (r : HoverResult) : Hover :=
  {| contents :=
       match JS.get "contents" (hr_hover r) with
       | JArr blocks => map asMarkdown blocks
       | block => [asMarkdown block]
       end;
     range := None |}.

Definition document : string := "file:///src/main.rs".
Definition range : (Z * Z) * (Z * Z) := ((3, 0), (3, 12))%Z.
Definition context : list jsval := [].

Definition params : jsval :=
  JObj [("textDocument", asTextDocumentIdentifier document);
        ("range", asRange range);
        ("context", asCodeActionContext context)].

Definition stub (title : string) : jsval := JObj [("title", JStr title)].

Definition tagged (title tag : string) : jsval :=
  JObj [("title", JStr title); ("group", JStr tag)].

Definition fix_link (tooltip : option string) : CommandLink :=
  {| cl_title := "Fix 1"; cl_command := "x.fix";
     cl_tooltip := tooltip; cl_arguments := [JNum 1] |}.

Definition fixes (tooltip : option string) : list CommandLinkGroup :=
  [{| clg_title := Some "Fixes"; clg_commands := [fix_link tooltip] |}].

Definition link (title command tooltip : string) (arguments : list jsval)
  : CommandLink :=
  {| cl_title := title; cl_command := command;
     cl_tooltip := Some tooltip; cl_arguments := arguments |}.

(** A titled group of two links and an untitled group of one. *)
Definition two_groups : list CommandLinkGroup :=
  [{| clg_title := Some "Fixes";
      clg_commands := [link "Fix 1" "x.fix" "Apply fix" [JNum 1];
                       link "Fix 2" "x.fix" "Apply the other fix"
                         [JNum 2; JStr "a b"]] |};
   {| clg_title := None;
      clg_commands := [link "Go" "x.go" "Go to definition" []] |}].

Definition hover_response (actions : option (list CommandLinkGroup)) : HoverResult :=
  {| hr_hover := JObj [("contents", JArr [JObj [("kind", JStr "markdown");
                                             ("value", JStr "```rust fn main()```")]])];
     hr_actions := actions |}.

End Sample.

Section Client.

(** Editor-side arguments of the middleware and the library functions
    the transforms call: the code-to-protocol converters, the shape
    checks of vscode-languageserver-types and the protocol-to-code
    converters. *)
Variables TextDocument Range CodeActionContext : Type.
Variable asTextDocumentIdentifier : TextDocument -> jsval.
Variable asRange : Range -> jsval.
Variable asCodeActionContext : CodeActionContext -> jsval.
Variable CodeAction_is : jsval -> bool.
Variable Diagnostic_is : jsval -> bool.
Variable asCodeAction : jsval -> jsval.
(** [asHover] on a response that is not [null] and that it converts; on
    [null] the converter gives [undefined].  A response the converter
    throws on is not covered. *)
Variable asHover : HoverResult -> Hover.

Definition provideHover (response : settled (option HoverResult))
  : run (nullable Hover) :=
  then_ response
    (fun result =>
       match result with
       | Some r =>
           let hover := asHover r in
           let hover :=
             {| contents := map toTrusted (contents hover); range := range hover |} in
           let actions := hr_actions r in
           resolve (Defined
             match actions with
             | Some actions =>
                 {| contents := contents hover ++ [renderHoverActions actions];
                    range := range hover |}
             | None => hover
             end)
       | None => resolve IsUndefined
       end)
    (fun error =>
       Run [LogFailedRequest HoverRequest error] (Fulfilled IsNull)).

(** Body of the first loop, for one [item]. *)
Definition step (params : jsval) (st : state) (item : jsval) : outcome state :=
  if CodeAction_is item then
    _ ← assert (negb (JS.truthy (JS.get "command" item)))
          "We don't expect to receive commands in CodeActions";
    let action := asCodeAction item in
    mret {| result := result st ++ [action]; groups := groups st |}
  else
    _ ← assert (isCodeActionWithoutEditsAndCommands Diagnostic_is item)
          "We don't expect edits or commands here";
    let action := stub_action params item in
    let group := JS.get "group" item in
    if JS.truthy group then
      match Map_get group (groups st) with
      | None =>
          let entry := {| index := length (result st); items := [] |} in
          mret {| result := result st ++ [action];
                  groups := groups st ++ [(group, items_push action entry)] |}
      | Some _ =>
          mret {| result := result st;
                  groups := Map_alter (items_push action) group (groups st) |}
      end
    else
      mret {| result := result st ++ [action]; groups := groups st |}.

Fixpoint loop (params : jsval) (st : state) (values : list jsval) : outcome state :=
  match values with
  | [] => mret st
  | item :: rest => st' ← step params st item; loop params st' rest
  end.

(** The fulfilment handler of the code-action request. *)
Definition groupCodeActions (params : jsval) (values : option (list jsval))
  : outcome (nullable (list jsval)) :=
  match values with
  | None => mret IsUndefined
  | Some values =>
      st ← loop params {| result := []; groups := [] |} values;
      mret (Defined (foldl collapse (result st) (groups st)))
  end.

Definition codeActionParams (document : TextDocument) (range : Range)
    (context : CodeActionContext) : jsval :=
  JObj [("textDocument", asTextDocumentIdentifier document);
        ("range", asRange range);
        ("context", asCodeActionContext context)].

Definition provideCodeActions (document : TextDocument) (range : Range)
    (context : CodeActionContext) (response : settled (option (list jsval)))
  : run (nullable (list jsval)) :=
  let params := codeActionParams document range context in
  then_ response
    (fun values => settle (groupCodeActions params values))
    (fun _error => resolve IsUndefined).

(** *** What the pass computes

    A closed description of the output, against which the two loops are
    verified.  An item is [grouped] when the stub branch files it under
    a tag; the first item of a tag owns the slot of the tag, every item
    that is not grouped owns its own slot. *)

Definition group_of (item : jsval) : jsval := JS.get "group" item.

Definition accepted (item : jsval) : bool :=
  if CodeAction_is item then negb (JS.truthy (JS.get "command" item))
  else isCodeActionWithoutEditsAndCommands Diagnostic_is item.

Definition grouped (item : jsval) : bool :=
  negb (CodeAction_is item) && JS.truthy (group_of item).

(** [item] is a stub filed under the tag [G]. *)
Definition carries (G item : jsval) : bool :=
  grouped item && JS.same_value_zero G (group_of item).

Definition seen_in (G : jsval) (l : list jsval) : bool := existsb (carries G) l.

Definition owns_slot (seen : list jsval) (item : jsval) : bool :=
  negb (grouped item && seen_in (group_of item) seen).

Fixpoint owners (seen values : list jsval) : list jsval :=
  match values with
  | [] => []
  | item :: rest =>
      (if owns_slot seen item then [item] else []) ++ owners (item :: seen) rest
  end.

Definition members (G : jsval) (values : list jsval) : list jsval :=
  List.filter (carries G) values.

(** A tag that is an object or an array is a key no later lookup finds. *)
Definition group_members (item : jsval) (values : list jsval) : list jsval :=
  if JS.primitive (group_of item) then members (group_of item) values else [item].

Definition placeholder (params item : jsval) : jsval :=
  if CodeAction_is item then asCodeAction item else stub_action params item.

Definition final (params : jsval) (values : list jsval) (item : jsval) : jsval :=
  if grouped item then
    let items := map (stub_action params) (group_members item values) in
    if (length items =? 1)%nat then JS.index 0 (JArr items)
    else group_action (group_of item) items
  else placeholder params item.

(** The [groups] map once [values] have been read, for slots [os]
    starting at position [i]. *)
Fixpoint table_from (params : jsval) (values : list jsval) (i : nat)
    (os : list jsval) : list (jsval * entry) :=
  match os with
  | [] => []
  | item :: rest =>
      (if grouped item
       then [(group_of item,
              {| index := i;
                 items := map (stub_action params) (group_members item values) |})]
       else [])
      ++ table_from params values (S i) rest
  end.

Fixpoint distinct_tags (os : list jsval) : Prop :=
  match os with
  | [] => True
  | item :: rest =>
      (grouped item = true -> seen_in (group_of item) rest = false)
      /\ distinct_tags rest
  end.

(** Two items the stub branch cannot tell apart: both are stubs and
    they agree on [title], [id] and [group]. *)
Definition reads_alike (x x' : jsval) : Prop :=
  CodeAction_is x = false /\ CodeAction_is x' = false
  /\ isCodeActionWithoutEditsAndCommands Diagnostic_is x = true
  /\ isCodeActionWithoutEditsAndCommands Diagnostic_is x' = true
  /\ JS.get "title" x = JS.get "title" x'
  /\ JS.get "id" x = JS.get "id" x'
  /\ JS.get "group" x = JS.get "group" x'.

(** *** Tags and slot owners *)

Lemma same_value_zero_eq a b : JS.same_value_zero a b = true -> a = b.
Proof.
  destruct a, b; simpl; try discriminate; auto.
  - intros H. apply Bool.eqb_prop in H. congruence.
  - intros H. apply Z.eqb_eq in H. congruence.
  - intros H. apply String.eqb_eq in H. congruence.
Qed.

Lemma same_value_zero_refl a : JS.primitive a = true -> JS.same_value_zero a a = true.
Proof.
  destruct a; simpl; try discriminate; auto.
  - intros _. apply Bool.eqb_reflx.
  - intros _. apply Z.eqb_refl.
  - intros _. apply String.eqb_refl.
Qed.

Lemma same_value_zero_primitive a b :
  JS.same_value_zero a b = true -> JS.primitive a = true.
Proof. destruct a, b; simpl; try discriminate; auto. Qed.

Lemma same_value_zero_sym a b : JS.same_value_zero a b = JS.same_value_zero b a.
Proof.
  destruct a, b; simpl; auto.
  - destruct b, b0; reflexivity.
  - apply Z.eqb_sym.
  - apply String.eqb_sym.
Qed.

Lemma carries_inv G x :
  carries G x = true ->
  grouped x = true /\ group_of x = G /\ JS.primitive G = true.
Proof.
  unfold carries. intros H. apply andb_true_iff in H as [Hg Hs].
  split; [exact Hg|]. split.
  - symmetry. now apply same_value_zero_eq.
  - now apply same_value_zero_primitive in Hs.
Qed.

Lemma carries_own x :
  grouped x = true -> JS.primitive (group_of x) = true -> carries (group_of x) x = true.
Proof.
  intros Hg Hp. unfold carries. rewrite Hg. simpl. now apply same_value_zero_refl.
Qed.

Lemma carries_not_primitive G x : JS.primitive G = false -> carries G x = false.
Proof.
  intros Hp. destruct (carries G x) eqn:E; [|reflexivity].
  apply carries_inv in E as (_ & _ & E). congruence.
Qed.

Lemma carries_other G x y :
  grouped x = true -> carries G y = true -> carries G x = false ->
  carries (group_of x) y = false.
Proof.
  intros Hx Hy Hn. destruct (carries (group_of x) y) eqn:E; [|reflexivity].
  apply carries_inv in Hy as (_ & Hy & _). apply carries_inv in E as (_ & E & Hp).
  rewrite <- Hy, E in Hn. rewrite carries_own in Hn; congruence.
Qed.

Lemma seen_in_app G l l' : seen_in G (l ++ l') = seen_in G l || seen_in G l'.
Proof. apply existsb_app. Qed.

Lemma seen_in_rev G l : seen_in G (rev l) = seen_in G l.
Proof.
  unfold seen_in. induction l as [|x l IH]; simpl; [reflexivity|].
  rewrite existsb_app, IH. simpl. rewrite orb_false_r. apply orb_comm.
Qed.

Lemma seen_in_false G l :
  seen_in G l = false <-> Forall (fun y => carries G y = false) l.
Proof.
  unfold seen_in. induction l as [|x l IH]; simpl.
  - split; auto.
  - rewrite orb_false_iff, IH. split.
    + intros [? ?]. now constructor.
    + intros H. inversion H; subst. auto.
Qed.

Lemma owners_app seen l l' :
  owners seen (l ++ l') = owners seen l ++ owners (rev l ++ seen) l'.
Proof.
  revert seen. induction l as [|x l IH]; intros seen; simpl; [reflexivity|].
  rewrite IH, <- !app_assoc. reflexivity.
Qed.

Lemma seen_in_owners G seen l :
  seen_in G (owners seen l) = seen_in G l && negb (seen_in G seen).
Proof.
  revert seen. induction l as [|x l IH]; intros seen; simpl; [reflexivity|].
  rewrite seen_in_app, IH. simpl.
  destruct (carries G x) eqn:Hc.
  - destruct (carries_inv _ _ Hc) as (Hg & Hx & _). subst G.
    unfold owns_slot. rewrite Hg. simpl.
    destruct (seen_in (group_of x) seen); simpl.
    + now rewrite andb_false_r.
    + now rewrite Hc.
  - simpl. destruct (owns_slot seen x); simpl; [now rewrite Hc|reflexivity].
Qed.

Lemma owners_subset seen l x : In x (owners seen l) -> In x l.
Proof.
  revert seen. induction l as [|y l IH]; intros seen; simpl; [tauto|].
  rewrite in_app_iff. intros [H|H].
  - destruct (owns_slot seen y); simpl in H; tauto.
  - right. eauto.
Qed.

Lemma distinct_tags_owners seen l : distinct_tags (owners seen l).
Proof.
  revert seen. induction l as [|x l IH]; intros seen; simpl; [exact I|].
  destruct (owns_slot seen x); simpl; [|apply IH].
  split; [|apply IH].
  intros Hg. rewrite seen_in_owners. simpl.
  destruct (JS.primitive (group_of x)) eqn:Hp.
  - rewrite (carries_own _ Hg Hp). simpl. apply andb_false_r.
  - replace (seen_in (group_of x) l) with false; [reflexivity|].
    symmetry. apply seen_in_false, Forall_forall. intros y _.
    now apply carries_not_primitive.
Qed.

(** *** The first loop builds the table *)

Lemma group_members_snoc y L x :
  group_members y (L ++ [x])
  = group_members y L ++ (if carries (group_of y) x then [x] else []).
Proof.
  unfold group_members, members.
  destruct (JS.primitive (group_of y)) eqn:Hp.
  - rewrite List.filter_app. simpl.
    destruct (carries (group_of y) x); reflexivity.
  - now rewrite carries_not_primitive.
Qed.

Lemma table_from_app params L i os os' :
  table_from params L i (os ++ os')
  = table_from params L i os ++ table_from params L (i + length os) os'.
Proof.
  revert i. induction os as [|y os IH]; intros i; simpl.
  - now rewrite Nat.add_0_r.
  - rewrite IH, <- app_assoc. do 3 f_equal. lia.
Qed.

Lemma table_from_keep params L x i os :
  Forall (fun y => grouped y = true -> carries (group_of y) x = false) os ->
  table_from params (L ++ [x]) i os = table_from params L i os.
Proof.
  revert i. induction os as [|y os IH]; intros i H; simpl; [reflexivity|].
  inversion H as [|? ? Hy Hos]; subst. rewrite IH by assumption.
  destruct (grouped y) eqn:Hg; [|reflexivity].
  rewrite group_members_snoc, Hy by reflexivity. now rewrite app_nil_r.
Qed.

Lemma Map_get_table params L G i os :
  match Map_get G (table_from params L i os) with
  | Some _ => seen_in G os = true
  | None => seen_in G os = false
  end.
Proof.
  revert i. induction os as [|y os IH]; intros i; simpl; [reflexivity|].
  unfold carries. destruct (grouped y); simpl; [|apply IH].
  rewrite (same_value_zero_sym G).
  destruct (JS.same_value_zero (group_of y) G); simpl; [reflexivity|apply IH].
Qed.

Lemma Map_alter_table params L x i os :
  grouped x = true -> distinct_tags os ->
  Map_alter (items_push (stub_action params x)) (group_of x) (table_from params L i os)
  = table_from params (L ++ [x]) i os.
Proof.
  intros Hx. revert i. induction os as [|y os IH]; intros i Hd; simpl;
    [reflexivity|].
  destruct Hd as [Hy Hos].
  destruct (grouped y) eqn:Hg; simpl; [|now apply IH].
  rewrite group_members_snoc. unfold carries. rewrite Hx. simpl.
  destruct (JS.same_value_zero (group_of y) (group_of x)) eqn:Hs.
  - unfold items_push. simpl. rewrite map_app. simpl. f_equal.
    symmetry. apply table_from_keep.
    specialize (Hy eq_refl). apply seen_in_false in Hy.
    apply same_value_zero_eq in Hs.
    eapply Forall_impl; [exact Hy|]. simpl. intros z Hz Hgz.
    destruct (carries (group_of z) x) eqn:E; [|reflexivity].
    apply carries_inv in E as (_ & E & Hp).
    rewrite Hs, E, carries_own in Hz; congruence.
  - rewrite app_nil_r. f_equal. now apply IH.
Qed.

Lemma loop_app params st l l' :
  loop params st (l ++ l') = (st' ← loop params st l; loop params st' l').
Proof.
  revert st. induction l as [|x l IH]; intros st; simpl; [reflexivity|].
  destruct (step params st x) as [st1|e]; simpl; [apply IH|reflexivity].
Qed.

Lemma owners_snoc l x :
  owners [] (l ++ [x])
  = owners [] l ++ (if grouped x && seen_in (group_of x) l then [] else [x]).
Proof.
  rewrite owners_app, app_nil_r. simpl. unfold owns_slot.
  rewrite seen_in_rev, app_nil_r.
  now destruct (grouped x && seen_in (group_of x) l).
Qed.

Lemma table_from_snoc_plain params l x :
  grouped x = false ->
  table_from params (l ++ [x]) 0 (owners [] (l ++ [x]))
  = table_from params l 0 (owners [] l).
Proof.
  intros Hg. rewrite owners_snoc, Hg. simpl.
  rewrite table_from_app. simpl. rewrite Hg, app_nil_r.
  apply table_from_keep, Forall_forall. intros y _ _.
  unfold carries. now rewrite Hg.
Qed.

Lemma members_none G l : seen_in G l = false -> members G l = [].
Proof.
  intros H. apply seen_in_false in H. unfold members.
  induction H as [|y l Hy _ IH]; simpl; [reflexivity|]. now rewrite Hy.
Qed.

Lemma table_from_snoc_first params l x :
  grouped x = true -> seen_in (group_of x) l = false ->
  table_from params (l ++ [x]) 0 (owners [] (l ++ [x]))
  = table_from params l 0 (owners [] l)
    ++ [(group_of x,
         {| index := length (owners [] l); items := [stub_action params x] |})].
Proof.
  intros Hg Hseen. rewrite owners_snoc, Hg, Hseen. simpl.
  rewrite table_from_app. simpl. rewrite Hg. simpl. f_equal.
  - apply table_from_keep, Forall_forall. intros y Hy Hgy.
    apply list_elem_of_In, owners_subset in Hy.
    apply seen_in_false in Hseen. rewrite Forall_forall in Hseen.
    specialize (Hseen y (proj2 (list_elem_of_In _ _) Hy)).
    destruct (carries (group_of y) x) eqn:E; [|reflexivity].
    apply carries_inv in E as (_ & E & Hp).
    rewrite E, carries_own in Hseen; congruence.
  - do 3 f_equal. rewrite group_members_snoc. unfold group_members.
    destruct (JS.primitive (group_of x)) eqn:Hp.
    + now rewrite carries_own, members_none.
    + now rewrite carries_not_primitive.
Qed.

Lemma table_from_snoc_again params l x :
  grouped x = true -> seen_in (group_of x) l = true ->
  table_from params (l ++ [x]) 0 (owners [] (l ++ [x]))
  = Map_alter (items_push (stub_action params x)) (group_of x)
      (table_from params l 0 (owners [] l)).
Proof.
  intros Hg Hseen. rewrite owners_snoc, Hg, Hseen. simpl. rewrite app_nil_r.
  symmetry. apply Map_alter_table; [exact Hg|apply distinct_tags_owners].
Qed.

Lemma Map_get_owners params l G :
  match Map_get G (table_from params l 0 (owners [] l)) with
  | Some _ => seen_in G l = true
  | None => seen_in G l = false
  end.
Proof.
  pose proof (Map_get_table params l G 0 (owners [] l)) as H.
  rewrite seen_in_owners in H. simpl in H. now rewrite andb_true_r in H.
Qed.

Lemma step_accepted params l x :
  accepted x = true ->
  step params
    {| result := map (placeholder params) (owners [] l);
       groups := table_from params l 0 (owners [] l) |} x
  = Return
      {| result := map (placeholder params) (owners [] (l ++ [x]));
         groups := table_from params (l ++ [x]) 0 (owners [] (l ++ [x])) |}.
Proof.
  intros Hacc. unfold step, accepted in *. simpl.
  assert (Hp : placeholder params x
               = if CodeAction_is x then asCodeAction x else stub_action params x)
    by reflexivity.
  destruct (CodeAction_is x) eqn:Hfull; rewrite Hacc; simpl.
  - assert (Hg : grouped x = false) by (unfold grouped; now rewrite Hfull).
    rewrite table_from_snoc_plain, owners_snoc, Hg, map_app by exact Hg.
    simpl. now rewrite Hp.
  - fold (group_of x). destruct (JS.truthy (group_of x)) eqn:Htag.
    + assert (Hg : grouped x = true) by (unfold grouped; now rewrite Hfull, Htag).
      pose proof (Map_get_owners params l (group_of x)) as Hget.
      destruct (Map_get (group_of x) (table_from params l 0 (owners [] l))).
      * rewrite table_from_snoc_again, owners_snoc, Hg, Hget by assumption.
        simpl. now rewrite app_nil_r.
      * rewrite table_from_snoc_first, owners_snoc, Hg, Hget, map_app by assumption.
        simpl. rewrite Hp, length_map. reflexivity.
    + assert (Hg : grouped x = false) by (unfold grouped; now rewrite Hfull, Htag).
      rewrite table_from_snoc_plain, owners_snoc, Hg, map_app by exact Hg.
      simpl. now rewrite Hp.
Qed.

Lemma loop_accepted params values :
  Forall (fun x => accepted x = true) values ->
  loop params {| result := []; groups := [] |} values
  = Return
      {| result := map (placeholder params) (owners [] values);
         groups := table_from params values 0 (owners [] values) |}.
Proof.
  induction values as [|x l IH] using rev_ind; intros Hacc; [reflexivity|].
  apply Forall_app in Hacc as [Hl Hx]. inversion Hx; subst.
  rewrite loop_app, IH by assumption. simpl.
  rewrite step_accepted by assumption. reflexivity.
Qed.

(** *** The second loop fills the slots *)

Lemma collapse_table params values pre os :
  foldl collapse (pre ++ map (placeholder params) os)
    (table_from params values (length pre) os)
  = pre ++ map (final params values) os.
Proof.
  revert pre. induction os as [|y os IH]; intros pre; simpl; [reflexivity|].
  assert (Hnext : forall v,
    foldl collapse (pre ++ v :: map (placeholder params) os)
      (table_from params values (S (length pre)) os)
    = pre ++ v :: map (final params values) os).
  { intros v. specialize (IH (pre ++ [v])).
    rewrite length_app, Nat.add_1_r, <- !app_assoc in IH. exact IH. }
  assert (Hset : forall v w rest,
    <[length pre := v]> (pre ++ w :: rest) = pre ++ v :: rest).
  { intros v w rest. rewrite insert_app_r_alt, Nat.sub_diag by lia. reflexivity. }
  unfold final at 1. destruct (grouped y); simpl; [|apply Hnext].
  destruct (length (map (stub_action params) (group_members y values)) =? 1)%nat;
    rewrite Hset; apply Hnext.
Qed.

(** Every index the first loop records lies inside [result]: the second
    loop only overwrites slots and never writes past the end. *)
Lemma table_from_index_bound params values i os :
  Forall (fun kv => i <= index (snd kv) < i + length os)
         (table_from params values i os).
Proof.
  revert i. induction os as [|y os IH]; intros i; simpl; [constructor|].
  assert (Hrest : Forall (fun kv => i <= index (snd kv) < i + S (length os))
                         (table_from params values (S i) os)).
  { eapply Forall_impl; [apply IH|]. simpl. intros kv H. lia. }
  destruct (grouped y); simpl; [|exact Hrest].
  constructor; [simpl; lia|exact Hrest].
Qed.

Lemma loop_index_bound params values st :
  Forall (fun x => accepted x = true) values ->
  loop params {| result := []; groups := [] |} values = Return st ->
  Forall (fun kv => index (snd kv) < length (result st)) (groups st).
Proof.
  intros Hacc Hloop. rewrite loop_accepted in Hloop by assumption.
  injection Hloop as <-. simpl. rewrite length_map.
  eapply Forall_impl; [apply table_from_index_bound|]. simpl. intros kv H. lia.
Qed.

(** The pass succeeds on every list of accepted items and returns, in
    order, the final action of every slot owner. *)
Lemma groupCodeActions_accepted params values :
  Forall (fun x => accepted x = true) values ->
  groupCodeActions params (Some values)
  = Return (Defined (map (final params values) (owners [] values))).
Proof.
  intros Hacc. unfold groupCodeActions. rewrite loop_accepted by assumption.
  simpl. do 2 f_equal.
  apply (collapse_table params values []).
Qed.

(** *** Removing items leaves the other slots alone *)

Lemma members_filter G f l :
  (forall z, carries G z = true -> f z = true) ->
  members G (List.filter f l) = members G l.
Proof.
  intros Hf. unfold members. induction l as [|z l IH]; simpl; [reflexivity|].
  destruct (f z) eqn:Hz; simpl; [now rewrite IH|].
  destruct (carries G z) eqn:Hc; [|exact IH].
  rewrite Hf in Hz; [discriminate|exact Hc].
Qed.

Lemma owners_seen_ext seen seen' l :
  (forall g, seen_in g seen = seen_in g seen') ->
  owners seen l = owners seen' l.
Proof.
  revert seen seen'. induction l as [|y l IH]; intros seen seen' H; simpl;
    [reflexivity|].
  unfold owns_slot. rewrite (H (group_of y)). f_equal.
  apply IH. intros g. simpl. now rewrite H.
Qed.

Lemma owners_filter G seen seen' l :
  seen_in G seen = true ->
  (forall g, g <> G -> seen_in g seen = seen_in g seen') ->
  owners seen l = owners seen' (List.filter (fun y => negb (carries G y)) l).
Proof.
  revert seen seen'. induction l as [|y l IH]; intros seen seen' HG H; simpl;
    [reflexivity|].
  destruct (carries G y) eqn:Hc; simpl.
  - destruct (carries_inv _ _ Hc) as (Hg & Hy & _).
    unfold owns_slot. rewrite Hg, Hy, HG. simpl.
    apply IH.
    + simpl. now rewrite HG, orb_true_r.
    + intros g Hne. simpl. rewrite (H g Hne).
      destruct (carries g y) eqn:E; [|reflexivity].
      apply carries_inv in E as (_ & E & _). congruence.
  - assert (Hown : owns_slot seen y = owns_slot seen' y).
    { unfold owns_slot. destruct (grouped y) eqn:Hg; [|reflexivity]. simpl.
      f_equal. apply H. intros Heq.
      assert (Hp : JS.primitive G = true).
      { destruct (JS.primitive G) eqn:E; [reflexivity|].
        assert (Hno : seen_in G seen = false).
        { apply seen_in_false, Forall_forall. intros z _.
          now apply carries_not_primitive. }
        congruence. }
      rewrite <- Heq in Hc, Hp. rewrite carries_own in Hc; congruence. }
    rewrite Hown. f_equal. apply IH.
    + simpl. now rewrite HG, orb_true_r.
    + intros g Hne. simpl. now rewrite (H g Hne).
Qed.

Lemma final_ext params values values' os :
  Forall (fun y => grouped y = true ->
                   members (group_of y) values = members (group_of y) values') os ->
  map (final params values) os = map (final params values') os.
Proof.
  induction 1 as [|y os Hy _ IH]; simpl; [reflexivity|].
  rewrite IH. f_equal. unfold final, group_members.
  destruct (grouped y); [|reflexivity].
  now rewrite Hy.
Qed.

Lemma owners_no_carrier G seen l :
  seen_in G l = false \/ seen_in G seen = true ->
  Forall (fun y => carries G y = false) (owners seen l).
Proof.
  intros H. apply seen_in_false. rewrite seen_in_owners.
  destruct H as [-> | ->]; [reflexivity|apply andb_false_r].
Qed.

Lemma take_drop_middle_app {A} (a b : list A) (x : A) :
  take (length a) (a ++ b) ++ x :: drop (length a) (a ++ b) = a ++ x :: b.
Proof. now rewrite take_app_length, drop_app_length. Qed.

(** The slot of a tag: with [m] the first item carrying [G], the output
    is the output for the list without the items of [G], with the final
    action of [m] put where the items before [m] end. *)
Lemma group_slot params G l1 m l2 :
  Forall (fun x => accepted x = true) (l1 ++ m :: l2) ->
  carries G m = true ->
  Forall (fun y => carries G y = false) l1 ->
  exists before others,
    groupCodeActions params (Some l1) = Return (Defined before)
    /\ groupCodeActions params
         (Some (List.filter (fun y => negb (carries G y)) (l1 ++ m :: l2)))
       = Return (Defined others)
    /\ length before <= length others
    /\ groupCodeActions params (Some (l1 ++ m :: l2))
       = Return (Defined (take (length before) others
                          ++ final params (l1 ++ m :: l2) m
                          :: drop (length before) others)).
Proof.
  intros Hacc Hm Hl1.
  set (values := l1 ++ m :: l2) in *.
  set (nm := fun y => negb (carries G y)).
  assert (Hacc1 : Forall (fun x => accepted x = true) l1).
  { unfold values in Hacc. now apply Forall_app in Hacc as [? _]. }
  assert (Hfilter : List.filter nm values = l1 ++ List.filter nm l2).
  { unfold values. rewrite List.filter_app. simpl. unfold nm at 2. rewrite Hm. simpl.
    f_equal. clear -Hl1. induction Hl1 as [|y l Hy _ IH]; simpl; [reflexivity|].
    unfold nm at 1. now rewrite Hy, IH. }
  assert (Hacc' : Forall (fun x => accepted x = true) (List.filter nm values)).
  { apply Forall_forall. intros x Hx. apply list_elem_of_In, filter_In in Hx as [Hx _].
    rewrite Forall_forall in Hacc. apply Hacc. now apply list_elem_of_In. }
  destruct (carries_inv _ _ Hm) as (Hgm & HGm & Hprim).
  assert (Hseen1 : seen_in G l1 = false) by now apply seen_in_false.
  assert (Hown : owners [] values = owners [] l1 ++ m :: owners (m :: rev l1) l2).
  { unfold values. rewrite owners_app, app_nil_r. simpl. unfold owns_slot.
    now rewrite seen_in_rev, HGm, Hseen1, andb_false_r. }
  assert (Hown' : owners [] (List.filter nm values)
                  = owners [] l1 ++ owners (m :: rev l1) l2).
  { rewrite Hfilter, owners_app, app_nil_r. f_equal. symmetry.
    apply owners_filter.
    - simpl. now rewrite Hm.
    - intros g Hne. simpl. destruct (carries g m) eqn:E; [|reflexivity].
      apply carries_inv in E as (_ & E & _). congruence. }
  assert (Hsame : forall os, Forall (fun y => carries G y = false) os ->
            map (final params values) os = map (final params (List.filter nm values)) os).
  { intros os Hos. apply final_ext. eapply Forall_impl; [exact Hos|].
    simpl. intros y Hy Hgy. symmetry. apply members_filter.
    intros z Hz. unfold nm. destruct (carries G z) eqn:E; [|reflexivity].
    rewrite (carries_other G y z) in Hz; congruence. }
  exists (map (final params l1) (owners [] l1)),
         (map (final params (List.filter nm values)) (owners [] (List.filter nm values))).
  rewrite !groupCodeActions_accepted by assumption.
  split; [reflexivity|]. split; [reflexivity|]. split.
  - rewrite !length_map, Hown', length_app. lia.
  - do 2 f_equal. rewrite Hown, Hown', !map_app, length_map. simpl.
    rewrite <- (length_map (final params (List.filter nm values)) (owners [] l1)).
    rewrite take_drop_middle_app.
    rewrite !Hsame; [reflexivity| |].
    + apply owners_no_carrier. right. simpl. now rewrite Hm.
    + apply owners_no_carrier. now left.
Qed.

(** The slot of an item that is not grouped: the output is the output
    for the list without it, with its own action put at its position. *)
Lemma plain_slot params l1 m l2 :
  Forall (fun x => accepted x = true) (l1 ++ m :: l2) ->
  grouped m = false ->
  exists before others,
    groupCodeActions params (Some l1) = Return (Defined before)
    /\ groupCodeActions params (Some (l1 ++ l2)) = Return (Defined others)
    /\ length before <= length others
    /\ groupCodeActions params (Some (l1 ++ m :: l2))
       = Return (Defined (take (length before) others
                          ++ placeholder params m
                          :: drop (length before) others)).
Proof.
  intros Hacc Hm.
  assert (Hcm : forall g, carries g m = false).
  { intros g. unfold carries. now rewrite Hm. }
  assert (Hacc1 : Forall (fun x => accepted x = true) l1).
  { now apply Forall_app in Hacc as [? _]. }
  assert (Hacc' : Forall (fun x => accepted x = true) (l1 ++ l2)).
  { apply Forall_app in Hacc as [? H2]. inversion H2; subst.
    apply Forall_app. now split. }
  assert (Hnext : owners (m :: rev l1) l2 = owners (rev l1) l2).
  { apply owners_seen_ext. intros g. simpl. now rewrite Hcm. }
  assert (Hown : owners [] (l1 ++ m :: l2) = owners [] l1 ++ m :: owners (rev l1) l2).
  { rewrite owners_app, app_nil_r. simpl. unfold owns_slot.
    now rewrite Hm, Hnext. }
  assert (Hown' : owners [] (l1 ++ l2) = owners [] l1 ++ owners (rev l1) l2).
  { now rewrite owners_app, app_nil_r. }
  assert (Hsame : forall os,
            map (final params (l1 ++ m :: l2)) os = map (final params (l1 ++ l2)) os).
  { intros os. apply final_ext, Forall_forall. intros y _ _.
    unfold members. rewrite !List.filter_app. simpl. now rewrite Hcm. }
  exists (map (final params l1) (owners [] l1)),
         (map (final params (l1 ++ l2)) (owners [] (l1 ++ l2))).
  rewrite !groupCodeActions_accepted by assumption.
  split; [reflexivity|]. split; [reflexivity|]. split.
  - rewrite !length_map, Hown', length_app. lia.
  - do 2 f_equal. rewrite Hown, Hown', !map_app, length_map. simpl.
    rewrite <- (length_map (final params (l1 ++ l2)) (owners [] l1)).
    rewrite take_drop_middle_app, !Hsame.
    unfold final at 2. now rewrite Hm.
Qed.

Lemma owners_plain seen l :
  Forall (fun x => grouped x = false) l -> owners seen l = l.
Proof.
  intros H. revert seen. induction H as [|x l Hx _ IH]; intros seen; simpl;
    [reflexivity|].
  unfold owns_slot. rewrite Hx, IH. reflexivity.
Qed.

(** *** The actions the pass builds *)

Lemma stub_action_eq params item :
  stub_action params item
  = JObj [("title", JS.get "title" item);
          ("command",
           JObj [("command", JStr "rust-analyzer.resolveCodeAction");
                 ("title", JS.get "title" item);
                 ("arguments",
                  JArr [JObj [("id", JS.get "id" item);
                              ("codeActionParams", params)]])])].
Proof. reflexivity. Qed.

Lemma group_action_eq params G ms :
  group_action G (map (stub_action params) ms)
  = JObj [("title", G);
          ("command",
           JObj [("command", JStr "rust-analyzer.applyActionGroup");
                 ("title", JStr "");
                 ("arguments",
                  JArr [JArr (map (fun x =>
                                     JObj [("label", JS.get "title" x);
                                           ("arguments",
                                            JObj [("id", JS.get "id" x);
                                                  ("codeActionParams", params)])])
                                  ms)])])].
Proof.
  unfold group_action, new_CodeAction, Command. simpl. rewrite map_map.
  reflexivity.
Qed.

Lemma final_command_truthy params values y :
  CodeAction_is y = false ->
  JS.truthy (JS.get "command" (final params values y)) = true.
Proof.
  intros Hy. unfold final, placeholder. rewrite Hy.
  destruct (grouped y); [|reflexivity].
  destruct (map (stub_action params) (group_members y values)) as [|a [|b l]] eqn:E;
    try reflexivity.
  simpl. destruct (group_members y values) as [|z [|? ?]]; try discriminate.
  simpl in E. injection E as <-. reflexivity.
Qed.

(** *** Assertions *)

Lemma step_cases params st x :
  (accepted x = true /\ exists st', step params st x = Return st')
  \/ (accepted x = false /\ exists msg, step params st x = Throw (AssertionError msg)).
Proof.
  unfold step, accepted. destruct (CodeAction_is x).
  - destruct (negb (JS.truthy (JS.get "command" x))); simpl; eauto.
  - destruct (isCodeActionWithoutEditsAndCommands Diagnostic_is x); simpl; [|eauto].
    left. split; [reflexivity|].
    destruct (JS.truthy (JS.get "group" x)); [|eauto].
    destruct (Map_get (JS.get "group" x) (groups st)); eauto.
Qed.

Lemma loop_throws params st values :
  Exists (fun x => accepted x = false) values ->
  exists msg, loop params st values = Throw (AssertionError msg).
Proof.
  revert st. induction values as [|x l IH]; intros st H; [inversion H|].
  simpl. destruct (step_cases params st x) as [[Hacc [st' ->]] | [Hacc [msg ->]]].
  - simpl. apply IH. inversion H; subst; [congruence|assumption].
  - simpl. eauto.
Qed.

Lemma groupCodeActions_throws params values :
  Exists (fun x => accepted x = false) values ->
  exists msg, groupCodeActions params (Some values) = Throw (AssertionError msg).
Proof.
  intros H. unfold groupCodeActions.
  destruct (loop_throws params {| result := []; groups := [] |} values H) as [msg ->].
  simpl. eauto.
Qed.

Lemma command_truthy_rejected x :
  JS.truthy (JS.get "command" x) = true -> accepted x = false.
Proof.
  intros H. unfold accepted, isCodeActionWithoutEditsAndCommands.
  destruct (CodeAction_is x); [now rewrite H|].
  destruct (JS.get "command" x); try discriminate; simpl;
    now rewrite !andb_false_r.
Qed.

Lemma command_set_not_stub x :
  JS.get "command" x <> JUndefined ->
  isCodeActionWithoutEditsAndCommands Diagnostic_is x = false.
Proof.
  intros H. unfold isCodeActionWithoutEditsAndCommands.
  destruct (JS.get "command" x); try congruence; simpl; now rewrite !andb_false_r.
Qed.

Lemma title_not_string_not_stub x :
  JS.is_string (JS.get "title" x) = false ->
  isCodeActionWithoutEditsAndCommands Diagnostic_is x = false.
Proof.
  intros H. unfold isCodeActionWithoutEditsAndCommands. rewrite H.
  now rewrite andb_false_r.
Qed.

Lemma owners_keep_stub seen values :
  Forall (fun y => CodeAction_is y = true) seen ->
  Exists (fun x => CodeAction_is x = false) values ->
  Exists (fun x => CodeAction_is x = false) (owners seen values).
Proof.
  intros Hseen H. revert seen Hseen.
  induction values as [|x l IH]; intros seen Hseen; [inversion H|].
  assert (Hnone : forall g, seen_in g seen = false).
  { intros g. apply seen_in_false. eapply Forall_impl; [exact Hseen|].
    simpl. intros y Hy. unfold carries, grouped. now rewrite Hy. }
  simpl. unfold owns_slot. rewrite Hnone, andb_false_r. simpl.
  destruct (CodeAction_is x) eqn:Hx.
  - right. apply IH; [|now constructor].
    inversion H; subst; [congruence|assumption].
  - now left.
Qed.

(** *** The middleware *)

Lemma provideCodeActions_fulfilled document range context values :
  provideCodeActions document range context (Fulfilled values)
  = settle (groupCodeActions (codeActionParams document range context) values).
Proof. reflexivity. Qed.

(** C1: when at least two stubs carry the tag [G], with [m] the first of
    them, the output is the output for the list without the stubs of [G]
    with exactly one action added, at the position where the output for
    the items before [m] ends.  That action is titled [G]; its command is
    "rust-analyzer.applyActionGroup" with a single argument, the list of
    the pairs label (title of the member) and arguments (first argument of
    the member's own command), one per member, in input order. *)
Theorem group_collapses_to_composite document range context G l1 m l2 :
  let params := codeActionParams document range context in
  let values := l1 ++ m :: l2 in
  Forall (fun x => accepted x = true) values ->
  carries G m = true ->
  Forall (fun y => carries G y = false) l1 ->
  2 <= length (members G values) ->
  exists before others,
    provideCodeActions document range context (Fulfilled (Some l1))
    = Run [] (Fulfilled (Defined before))
    /\ provideCodeActions document range context
         (Fulfilled (Some (List.filter (fun y => negb (carries G y)) values)))
       = Run [] (Fulfilled (Defined others))
    /\ length before <= length others
    /\ provideCodeActions document range context (Fulfilled (Some values))
       = Run [] (Fulfilled (Defined
           (take (length before) others
            ++ JObj [("title", G);
                     ("command",
                      JObj [("command", JStr "rust-analyzer.applyActionGroup");
                            ("title", JStr "");
                            ("arguments",
                             JArr [JArr (map (fun x =>
                                      JObj [("label", JS.get "title" x);
                                            ("arguments",
                                             JObj [("id", JS.get "id" x);
                                                   ("codeActionParams", params)])])
                                    (members G values))])])]
            :: drop (length before) others))).
Proof.
  intros params values Hacc Hm Hl1 Hk. subst params values.
  destruct (group_slot (codeActionParams document range context) G l1 m l2 Hacc Hm Hl1)
    as (before & others & Hb & Ho & Hlen & Hv).
  exists before, others. rewrite !provideCodeActions_fulfilled, Hb, Ho, Hv.
  repeat split; try assumption. simpl. do 4 f_equal.
  destruct (carries_inv _ _ Hm) as (Hg & HG & Hp).
  unfold final, group_members. rewrite Hg, HG, Hp. simpl.
  rewrite length_map.
  destruct (Nat.eqb_spec (length (members G (l1 ++ m :: l2))) 1); [lia|].
  now rewrite group_action_eq.
Qed.

(** C2: when [m] is the only stub carrying the tag [G], the output is
    the output for the list without [m] with the plain action of [m]
    added at the position where the output for the items before [m] ends;
    any untagged stub with the same title and id put in the place of [m]
    gives the same output. *)
Theorem single_member_unwrapped document range context G l1 m l2 :
  let params := codeActionParams document range context in
  let values := l1 ++ m :: l2 in
  Forall (fun x => accepted x = true) values ->
  carries G m = true ->
  Forall (fun y => carries G y = false) l1 ->
  Forall (fun y => carries G y = false) l2 ->
  (exists before others,
     provideCodeActions document range context (Fulfilled (Some l1))
     = Run [] (Fulfilled (Defined before))
     /\ provideCodeActions document range context (Fulfilled (Some (l1 ++ l2)))
        = Run [] (Fulfilled (Defined others))
     /\ length before <= length others
     /\ provideCodeActions document range context (Fulfilled (Some values))
        = Run [] (Fulfilled (Defined
            (take (length before) others
             ++ JObj [("title", JS.get "title" m);
                      ("command",
                       JObj [("command", JStr "rust-analyzer.resolveCodeAction");
                             ("title", JS.get "title" m);
                             ("arguments",
                              JArr [JObj [("id", JS.get "id" m);
                                          ("codeActionParams", params)]])])]
             :: drop (length before) others))))
  /\ (forall m',
        accepted m' = true -> grouped m' = false -> CodeAction_is m' = false ->
        JS.get "title" m' = JS.get "title" m -> JS.get "id" m' = JS.get "id" m ->
        provideCodeActions document range context (Fulfilled (Some (l1 ++ m' :: l2)))
        = provideCodeActions document range context (Fulfilled (Some values))).
Proof.
  intros params values Hacc Hm Hl1 Hl2. subst params values.
  set (params := codeActionParams document range context) in *.
  destruct (group_slot params G l1 m l2 Hacc Hm Hl1)
    as (before & others & Hb & Ho & Hlen & Hv).
  assert (Hfilter : forall l, Forall (fun y => carries G y = false) l ->
            List.filter (fun y => negb (carries G y)) l = l).
  { induction 1 as [|y l Hy _ IH]; simpl; [reflexivity|]. now rewrite Hy, IH. }
  assert (Hmem : forall l, Forall (fun y => carries G y = false) l -> members G l = []).
  { intros l Hl. now apply members_none, seen_in_false. }
  assert (Hrest : List.filter (fun y => negb (carries G y)) (l1 ++ m :: l2) = l1 ++ l2).
  { rewrite List.filter_app. simpl. rewrite Hm. simpl. now rewrite !Hfilter. }
  rewrite Hrest in Ho.
  destruct (carries_inv _ _ Hm) as (Hg & HG & Hp).
  assert (Hfin : final params (l1 ++ m :: l2) m = stub_action params m).
  { unfold final, group_members, members. rewrite Hg, HG, Hp.
    rewrite List.filter_app. simpl. rewrite Hm.
    fold (members G l1). fold (members G l2). now rewrite !Hmem. }
  rewrite Hfin in Hv.
  split.
  - exists before, others. rewrite !provideCodeActions_fulfilled.
    fold params. rewrite Hb, Ho, Hv. auto.
  - intros m' Hacc' Hg' Hfull' Htitle Hid.
    assert (Hacc2 : Forall (fun x => accepted x = true) (l1 ++ m' :: l2)).
    { apply Forall_app in Hacc as [H1 H2].
      inversion H2; subst. apply Forall_app. split; [assumption|now constructor]. }
    destruct (plain_slot params l1 m' l2 Hacc2 Hg')
      as (before' & others' & Hb' & Ho' & _ & Hv').
    rewrite !provideCodeActions_fulfilled. fold params. rewrite Hv, Hv'.
    assert (before' = before) by congruence.
    assert (others' = others) by congruence. subst.
    unfold placeholder. rewrite Hfull'. unfold stub_action. now rewrite Htitle, Hid.
Qed.

(** C3: on a list of stubs none of which has a (truthy) group tag the
    pass returns one action per stub, in input order; the action has the
    title of the stub and nothing else but the command
    "rust-analyzer.resolveCodeAction", whose only argument is the object
    made of the id of the stub and the parameters of the request.  No
    action has an edit. *)
Theorem ungrouped_order_preserved document range context values :
  let params := codeActionParams document range context in
  Forall (fun x => CodeAction_is x = false
                   /\ isCodeActionWithoutEditsAndCommands Diagnostic_is x = true
                   /\ JS.truthy (JS.get "group" x) = false) values ->
  exists out,
    provideCodeActions document range context (Fulfilled (Some values))
    = Run [] (Fulfilled (Defined out))
    /\ out = map (fun x =>
                JObj [("title", JS.get "title" x);
                      ("command",
                       JObj [("command", JStr "rust-analyzer.resolveCodeAction");
                             ("title", JS.get "title" x);
                             ("arguments",
                              JArr [JObj [("id", JS.get "id" x);
                                          ("codeActionParams", params)]])])])
             values
    /\ Forall (fun a => JS.get "edit" a = JUndefined) out.
Proof.
  intros params Hv.
  assert (Hacc : Forall (fun x => accepted x = true) values).
  { eapply Forall_impl; [exact Hv|]. simpl. intros x (Hf & Hs & _).
    unfold accepted. now rewrite Hf. }
  assert (Hpl : Forall (fun x => grouped x = false) values).
  { eapply Forall_impl; [exact Hv|]. simpl. intros x (Hf & _ & Hg).
    unfold grouped, group_of. now rewrite Hg, andb_false_r. }
  assert (Hfinal : forall L x, CodeAction_is x = false -> grouped x = false ->
            final params L x = stub_action params x).
  { intros L x Hf Hg. unfold final, placeholder. now rewrite Hg, Hf. }
  assert (Hmap : forall L,
            map (final params L) values = map (stub_action params) values).
  { intros L. clear Hacc. induction Hv as [|x l (Hf & _ & _) Hl IH]; [reflexivity|].
    inversion Hpl; subst. simpl. rewrite IH, Hfinal by assumption. reflexivity. }
  eexists. rewrite provideCodeActions_fulfilled. fold params.
  rewrite groupCodeActions_accepted, owners_plain, Hmap by assumption. simpl.
  split; [reflexivity|]. split; [reflexivity|].
  apply Forall_forall. intros a Ha. apply list_elem_of_In, in_map_iff in Ha.
  destruct Ha as (x & <- & _). reflexivity.
Qed.

(** C4: a list holding an item whose command is present (truthy), or an
    item that is not a fully-specified action and has its command
    property set, or has a title that is not a string, or fails the stub
    check in any other way, makes the pass end in an assertion failure:
    the promise is rejected and no list is produced. *)
Theorem malformed_item_asserts document range context values item :
  In item values ->
  JS.truthy (JS.get "command" item) = true
  \/ (CodeAction_is item = false /\ JS.get "command" item <> JUndefined)
  \/ (CodeAction_is item = false /\ JS.is_string (JS.get "title" item) = false)
  \/ (CodeAction_is item = false
      /\ isCodeActionWithoutEditsAndCommands Diagnostic_is item = false) ->
  exists explanation,
    provideCodeActions document range context (Fulfilled (Some values))
    = Run [] (Rejected (AssertionError explanation)).
Proof.
  intros Hin Hbad.
  assert (Hrej : accepted item = false).
  { destruct Hbad as [H | [[Hf H] | [[Hf H] | [Hf H]]]].
    - now apply command_truthy_rejected.
    - unfold accepted. rewrite Hf. now apply command_set_not_stub.
    - unfold accepted. rewrite Hf. now apply title_not_string_not_stub.
    - unfold accepted. now rewrite Hf. }
  destruct (groupCodeActions_throws (codeActionParams document range context) values)
    as [msg Hmsg].
  { apply Exists_exists. exists item. split; [now apply list_elem_of_In|exact Hrej]. }
  exists msg. rewrite provideCodeActions_fulfilled, Hmsg. reflexivity.
Qed.

(** C5: the pass is not idempotent.  When the input has at least one
    stub, the pass succeeds on the accepted input and fails with an
    assertion on its own output, because the actions it builds carry a
    command.  What passes through is a list made only of fully-specified
    actions: each is converted, in order, and nothing is grouped. *)
Theorem rerun_rejects_own_output document range context values :
  Forall (fun x => accepted x = true) values ->
  (Exists (fun x => CodeAction_is x = false) values ->
   exists out explanation,
     provideCodeActions document range context (Fulfilled (Some values))
     = Run [] (Fulfilled (Defined out))
     /\ provideCodeActions document range context (Fulfilled (Some out))
        = Run [] (Rejected (AssertionError explanation)))
  /\ (Forall (fun x => CodeAction_is x = true) values ->
      provideCodeActions document range context (Fulfilled (Some values))
      = Run [] (Fulfilled (Defined (map asCodeAction values)))).
Proof.
  intros Hacc. set (params := codeActionParams document range context).
  split.
  - intros Hstub.
    destruct (groupCodeActions_throws params
                (map (final params values) (owners [] values))) as [msg Hmsg].
    { apply (owners_keep_stub []) in Hstub; [|constructor].
      apply Exists_exists in Hstub as (y & Hy & Hfull).
      apply Exists_exists. exists (final params values y). split.
      - apply list_elem_of_In, in_map. now apply list_elem_of_In.
      - apply command_truthy_rejected. now apply final_command_truthy. }
    exists (map (final params values) (owners [] values)), msg.
    rewrite !provideCodeActions_fulfilled. fold params.
    rewrite groupCodeActions_accepted, Hmsg by assumption. auto.
  - intros Hfull.
    assert (Hpl : Forall (fun x => grouped x = false) values).
    { eapply Forall_impl; [exact Hfull|]. simpl. intros x Hx.
      unfold grouped. now rewrite Hx. }
    rewrite provideCodeActions_fulfilled. fold params.
    rewrite groupCodeActions_accepted, owners_plain by assumption. simpl.
    do 3 f_equal. clear Hacc.
    assert (Hmap : forall L, map (final params L) values = map asCodeAction values).
    { intros L. induction Hfull as [|x l Hx _ IH]; [reflexivity|].
      inversion Hpl as [|? ? Hg Hpl']; subst. simpl. rewrite IH by assumption.
      f_equal. unfold final, placeholder. now rewrite Hg, Hx. }
    apply Hmap.
Qed.

(** C6: when the request resolves to [null], the transform resolves to
    [undefined]; it does not resolve to an empty list. *)
Theorem null_response_is_undefined document range context :
  provideCodeActions document range context (Fulfilled None)
  = Run [] (Fulfilled IsUndefined)
  /\ promise (provideCodeActions document range context (Fulfilled None))
     <> Fulfilled (Defined []).
Proof. split; [reflexivity|discriminate]. Qed.

(** C7: a rejected hover request is logged with [logFailedRequest] and
    the transform resolves to [null]; a rejected code-action request
    resolves to [undefined] and nothing is logged.  Neither failure is
    propagated. *)
Theorem transport_failure_recovered document range context failure :
  provideHover (Rejected failure)
  = Run [LogFailedRequest HoverRequest failure] (Fulfilled IsNull)
  /\ provideCodeActions document range context (Rejected failure)
     = Run [] (Fulfilled IsUndefined).
Proof. split; reflexivity. Qed.

(** C9: given a hover, the enricher appends one block exactly when the
    response carries an [actions] list, empty or not; the block is the
    rendering of the list (empty text for the empty list).  Without
    [actions] the contents are the converted blocks and nothing more.  A
    response without hover gives no hover. *)
Theorem hover_actions_block r :
  (exists hover,
     provideHover (Fulfilled (Some r)) = Run [] (Fulfilled (Defined hover))
     /\ contents hover
        = map toTrusted (contents (asHover r))
          ++ match hr_actions r with
             | Some actions => [renderHoverActions actions]
             | None => []
             end
     /\ length (contents hover)
        = length (contents (asHover r))
          + match hr_actions r with Some _ => 1 | None => 0 end)
  /\ provideHover (Fulfilled None) = Run [] (Fulfilled IsUndefined).
Proof.
  split; [|reflexivity].
  unfold provideHover. simpl. eexists. split; [reflexivity|].
  destruct (hr_actions r); simpl.
  - split; [reflexivity|]. rewrite length_app, length_map. reflexivity.
  - rewrite app_nil_r, length_map. split; [reflexivity|lia].
Qed.

(** C10: a stub whose group tag is the empty string goes the way of a
    stub without tag.  The loop appends its action to the output and
    leaves the [groups] map as it is; in the output of the pass its own
    action stands at its own position and the other slots are those of
    the list without it. *)
Theorem empty_tag_ungrouped document range context m :
  let params := codeActionParams document range context in
  let action :=
    JObj [("title", JS.get "title" m);
          ("command",
           JObj [("command", JStr "rust-analyzer.resolveCodeAction");
                 ("title", JS.get "title" m);
                 ("arguments",
                  JArr [JObj [("id", JS.get "id" m);
                              ("codeActionParams", params)]])])] in
  CodeAction_is m = false ->
  isCodeActionWithoutEditsAndCommands Diagnostic_is m = true ->
  JS.get "group" m = JStr "" ->
  (forall st,
     step params st m
     = Return {| result := result st ++ [action]; groups := groups st |})
  /\ (forall l1 l2,
        Forall (fun x => accepted x = true) (l1 ++ l2) ->
        exists before others,
          provideCodeActions document range context (Fulfilled (Some l1))
          = Run [] (Fulfilled (Defined before))
          /\ provideCodeActions document range context (Fulfilled (Some (l1 ++ l2)))
             = Run [] (Fulfilled (Defined others))
          /\ length before <= length others
          /\ provideCodeActions document range context
               (Fulfilled (Some (l1 ++ m :: l2)))
             = Run [] (Fulfilled (Defined
                 (take (length before) others ++ action
                  :: drop (length before) others)))).
Proof.
  intros params action Hfull Hstub Htag. split.
  - intros st. unfold step. rewrite Hfull, Hstub, Htag. reflexivity.
  - intros l1 l2 Hacc.
    assert (Hm : grouped m = false).
    { unfold grouped, group_of. rewrite Htag. apply andb_false_r. }
    assert (Hacc' : Forall (fun x => accepted x = true) (l1 ++ m :: l2)).
    { apply Forall_app in Hacc as [H1 H2]. apply Forall_app. split; [assumption|].
      constructor; [|assumption]. unfold accepted. now rewrite Hfull. }
    destruct (plain_slot params l1 m l2 Hacc' Hm)
      as (before & others & Hb & Ho & Hlen & Hv).
    exists before, others. rewrite !provideCodeActions_fulfilled. fold params.
    rewrite Hb, Ho, Hv. unfold placeholder. rewrite Hfull.
    repeat split; assumption.
Qed.

(** *** More on the pass *)

Lemma accepted_all_or_not values :
  Forall (fun x => accepted x = true) values
  \/ Exists (fun x => accepted x = false) values.
Proof.
  induction values as [|x l [IH|IH]].
  - left. constructor.
  - destruct (accepted x) eqn:Hx.
    + left. now constructor.
    + right. now left.
  - right. now right.
Qed.

(** X2: the pass stops at the first item that is not accepted; the
    explanation of the failure is that of the branch this item takes,
    whatever follows it. *)
Theorem first_offender_explains document range context l1 x l2 :
  Forall (fun y => accepted y = true) l1 ->
  accepted x = false ->
  provideCodeActions document range context (Fulfilled (Some (l1 ++ x :: l2)))
  = Run [] (Rejected (AssertionError
      (if CodeAction_is x
       then "We don't expect to receive commands in CodeActions"
       else "We don't expect edits or commands here"))).
Proof.
  intros Hl1 Hx. rewrite provideCodeActions_fulfilled. unfold groupCodeActions.
  rewrite loop_app, loop_accepted by assumption. simpl.
  unfold step. unfold accepted in Hx.
  destruct (CodeAction_is x); rewrite Hx; reflexivity.
Qed.

Lemma owners_length seen l : length (owners seen l) <= length l.
Proof.
  revert seen. induction l as [|x l IH]; intros seen; simpl; [lia|].
  rewrite length_app. specialize (IH (x :: seen)).
  destruct (owns_slot seen x); simpl; lia.
Qed.

Lemma owners_members_length G seen l :
  length (owners seen l) + length (members G l)
  <= length l + (if seen_in G seen then 0 else 1).
Proof.
  revert seen. induction l as [|x l IH]; intros seen; simpl.
  - destruct (seen_in G seen); lia.
  - rewrite length_app. specialize (IH (x :: seen)). simpl in IH.
    unfold members in *. destruct (carries G x) eqn:Hc; simpl in *.
    + destruct (carries_inv _ _ Hc) as (Hg & HG & _).
      unfold owns_slot. rewrite Hg, HG. simpl.
      destruct (seen_in G seen); simpl; lia.
    + destruct (seen_in G seen), (owns_slot seen x); simpl; lia.
Qed.

(** X3: on accepted items the pass returns at most one action per item,
    and the stubs that carry one tag take at most one slot together. *)
Theorem output_length_bound document range context values G :
  Forall (fun x => accepted x = true) values ->
  exists out,
    provideCodeActions document range context (Fulfilled (Some values))
    = Run [] (Fulfilled (Defined out))
    /\ length out <= length values
    /\ length out + length (members G values) <= length values + 1.
Proof.
  intros Hacc. eexists. rewrite provideCodeActions_fulfilled.
  rewrite groupCodeActions_accepted by assumption. simpl.
  split; [reflexivity|]. rewrite length_map. split.
  - apply owners_length.
  - apply (owners_members_length G [] values).
Qed.

Lemma owners_seen_irrelevant s seen l :
  Forall (fun y => grouped y = true -> seen_in (group_of y) seen = false) l ->
  owners (s ++ seen) l = owners s l.
Proof.
  intros H. revert s. induction H as [|y l Hy _ IH]; intros s; simpl; [reflexivity|].
  change (y :: s ++ seen) with ((y :: s) ++ seen).
  rewrite (IH (y :: s)). f_equal. unfold owns_slot. rewrite seen_in_app.
  destruct (grouped y); [|reflexivity]. now rewrite Hy, orb_false_r.
Qed.

(** X4: when no stub of [l2] carries a tag that a stub of [l1] carries,
    the output for [l1 ++ l2] is the output for [l1] followed by the
    output for [l2]. *)
Theorem disjoint_tags_concatenate document range context l1 l2 :
  Forall (fun x => accepted x = true) (l1 ++ l2) ->
  Forall (fun y => grouped y = true -> seen_in (group_of y) l1 = false) l2 ->
  exists out1 out2,
    provideCodeActions document range context (Fulfilled (Some l1))
    = Run [] (Fulfilled (Defined out1))
    /\ provideCodeActions document range context (Fulfilled (Some l2))
       = Run [] (Fulfilled (Defined out2))
    /\ provideCodeActions document range context (Fulfilled (Some (l1 ++ l2)))
       = Run [] (Fulfilled (Defined (out1 ++ out2))).
Proof.
  intros Hacc Hdis. set (params := codeActionParams document range context).
  pose proof Hacc as Hacc'. apply Forall_app in Hacc' as [Hacc1 Hacc2].
  do 2 eexists. rewrite !provideCodeActions_fulfilled. fold params.
  rewrite !groupCodeActions_accepted by assumption. simpl.
  split; [reflexivity|]. split; [reflexivity|]. do 3 f_equal.
  rewrite owners_app, app_nil_r, map_app.
  assert (Hown : owners (rev l1) l2 = owners [] l2).
  { apply (owners_seen_irrelevant [] (rev l1)).
    eapply Forall_impl; [exact Hdis|]. simpl. intros y Hy Hg.
    rewrite seen_in_rev. now apply Hy. }
  rewrite Hown. f_equal.
  - apply final_ext, Forall_forall. intros y Hy Hg.
    unfold members. rewrite List.filter_app.
    replace (List.filter (carries (group_of y)) l2) with (@nil jsval);
      [now rewrite app_nil_r|].
    symmetry. apply members_none, seen_in_false, Forall_forall. intros z Hz.
    destruct (carries (group_of y) z) eqn:E; [|reflexivity].
    destruct (carries_inv _ _ E) as (Hgz & Heq & Hp).
    rewrite Forall_forall in Hdis. specialize (Hdis z Hz Hgz).
    rewrite Heq in Hdis. apply seen_in_false in Hdis.
    rewrite Forall_forall in Hdis.
    apply list_elem_of_In, owners_subset, list_elem_of_In in Hy.
    specialize (Hdis y Hy). rewrite carries_own in Hdis by assumption.
    discriminate.
  - apply final_ext, Forall_forall. intros y Hy Hg.
    unfold members. rewrite List.filter_app.
    replace (List.filter (carries (group_of y)) l1) with (@nil jsval);
      [reflexivity|].
    symmetry. apply members_none.
    rewrite Forall_forall in Hdis. apply Hdis; [|exact Hg].
    apply list_elem_of_In. eapply owners_subset. apply list_elem_of_In. exact Hy.
Qed.

Lemma step_alike params st x x' :
  reads_alike x x' -> step params st x = step params st x'.
Proof.
  intros (Hf & Hf' & Hs & Hs' & Ht & Hi & Hg).
  unfold step, stub_action. now rewrite Hf, Hf', Hs, Hs', Ht, Hi, Hg.
Qed.

(** X5: of a stub the pass reads the title, the id and the group tag and
    nothing else: two lists whose items are pairwise equal, or pairwise
    stubs with the same title, id and group, give the same result.  The
    kind and the diagnostics of a stub do not reach the output. *)
Theorem stub_fields_read document range context l l' :
  Forall2 (fun x x' => x = x' \/ reads_alike x x') l l' ->
  provideCodeActions document range context (Fulfilled (Some l))
  = provideCodeActions document range context (Fulfilled (Some l')).
Proof.
  intros H. rewrite !provideCodeActions_fulfilled. unfold groupCodeActions.
  set (params := codeActionParams document range context).
  assert (Hloop : forall st, loop params st l = loop params st l').
  { induction H as [|x x' l l' Hx _ IH]; intros st; simpl; [reflexivity|].
    assert (Hstep : step params st x = step params st x').
    { destruct Hx as [->|Hx]; [reflexivity|now apply step_alike]. }
    rewrite Hstep. destruct (step params st x'); simpl; [apply IH|reflexivity]. }
  now rewrite Hloop.
Qed.

(** X6: a fully-specified action without command is converted and keeps
    a slot of its own, whatever its [group] property holds: the output is
    the output for the list without it, with the converted action put at
    its position. *)
Theorem full_action_keeps_slot document range context l1 m l2 :
  Forall (fun x => accepted x = true) (l1 ++ l2) ->
  CodeAction_is m = true ->
  JS.truthy (JS.get "command" m) = false ->
  exists before others,
    provideCodeActions document range context (Fulfilled (Some l1))
    = Run [] (Fulfilled (Defined before))
    /\ provideCodeActions document range context (Fulfilled (Some (l1 ++ l2)))
       = Run [] (Fulfilled (Defined others))
    /\ length before <= length others
    /\ provideCodeActions document range context (Fulfilled (Some (l1 ++ m :: l2)))
       = Run [] (Fulfilled (Defined
           (take (length before) others ++ asCodeAction m
            :: drop (length before) others))).
Proof.
  intros Hacc Hfull Hcmd. set (params := codeActionParams document range context).
  assert (Hm : grouped m = false) by (unfold grouped; now rewrite Hfull).
  assert (Hacc' : Forall (fun x => accepted x = true) (l1 ++ m :: l2)).
  { apply Forall_app in Hacc as [H1 H2]. apply Forall_app. split; [assumption|].
    constructor; [|assumption]. unfold accepted. now rewrite Hfull, Hcmd. }
  destruct (plain_slot params l1 m l2 Hacc' Hm)
    as (before & others & Hb & Ho & Hlen & Hv).
  exists before, others. rewrite !provideCodeActions_fulfilled. fold params.
  rewrite Hb, Ho, Hv. unfold placeholder. rewrite Hfull.
  repeat split; assumption.
Qed.

Lemma loop_return_accepted params st st' values :
  loop params st values = Return st' -> Forall (fun x => accepted x = true) values.
Proof.
  intros H. destruct (accepted_all_or_not values) as [Hall|Hex]; [exact Hall|].
  destruct (loop_throws params st values Hex) as [msg Hmsg]. congruence.
Qed.

Lemma group_members_own y values :
  In y values -> grouped y = true -> group_members y values <> [].
Proof.
  intros Hin Hg. unfold group_members, members.
  destruct (JS.primitive (group_of y)) eqn:Hp; [|discriminate].
  intros Hnil.
  assert (Hy : In y (List.filter (carries (group_of y)) values)).
  { apply filter_In. split; [exact Hin|now apply carries_own]. }
  rewrite Hnil in Hy. exact Hy.
Qed.

Lemma table_from_entries params values i os :
  Forall (fun y => In y values) os ->
  Forall (fun kv => items (snd kv) <> [] /\ JS.truthy (fst kv) = true)
         (table_from params values i os).
Proof.
  intros H. revert i. induction H as [|y os Hy _ IH]; intros i; simpl; [constructor|].
  destruct (grouped y) eqn:Hg; simpl; [|apply IH].
  constructor; [|apply IH]. simpl. split.
  - intros Hnil. apply map_eq_nil in Hnil. now apply (group_members_own y values).
  - unfold grouped in Hg. now apply andb_true_iff in Hg as [_ ?].
Qed.

(** X7: after the first loop every entry of [groups] has an index inside
    [result], at least one item and a truthy key: the second loop only
    overwrites slots that exist and never meets an empty group. *)
Theorem groups_invariant params values st :
  loop params {| result := []; groups := [] |} values = Return st ->
  Forall (fun kv => index (snd kv) < length (result st)
                    /\ items (snd kv) <> []
                    /\ JS.truthy (fst kv) = true)
         (groups st).
Proof.
  intros Hloop. pose proof (loop_return_accepted _ _ _ _ Hloop) as Hacc.
  pose proof (loop_index_bound params values st Hacc Hloop) as Hidx.
  rewrite loop_accepted in Hloop by assumption. injection Hloop as <-.
  simpl in *.
  assert (Hent := table_from_entries params values 0 (owners [] values)).
  rewrite Forall_forall in Hidx. apply Forall_forall. intros kv Hkv.
  split; [now apply Hidx|].
  assert (Hall : Forall (fun y => In y values) (owners [] values)).
  { apply Forall_forall. intros y Hy. apply list_elem_of_In in Hy.
    now apply owners_subset in Hy. }
  specialize (Hent Hall). rewrite Forall_forall in Hent. now apply Hent.
Qed.

Lemma final_command_name params values y :
  CodeAction_is y = false ->
  JS.get "command" (JS.get "command" (final params values y))
  = JStr "rust-analyzer.resolveCodeAction"
  \/ JS.get "command" (JS.get "command" (final params values y))
     = JStr "rust-analyzer.applyActionGroup".
Proof.
  intros Hy. unfold final, placeholder. rewrite Hy.
  destruct (grouped y); [|now left].
  destruct (group_members y values) as [|z [|z' l]]; simpl; auto.
Qed.

(** X8: when every item is an accepted stub, every action of the output
    carries one of the two fixed commands, the resolution of an action or
    the choice among a group. *)
Theorem stub_actions_have_commands document range context values :
  Forall (fun x => accepted x = true /\ CodeAction_is x = false) values ->
  exists out,
    provideCodeActions document range context (Fulfilled (Some values))
    = Run [] (Fulfilled (Defined out))
    /\ Forall (fun a =>
                 JS.get "command" (JS.get "command" a)
                 = JStr "rust-analyzer.resolveCodeAction"
                 \/ JS.get "command" (JS.get "command" a)
                    = JStr "rust-analyzer.applyActionGroup")
              out.
Proof.
  intros H. set (params := codeActionParams document range context).
  assert (Hacc : Forall (fun x => accepted x = true) values).
  { eapply Forall_impl; [exact H|]. simpl. tauto. }
  eexists. rewrite provideCodeActions_fulfilled. fold params.
  rewrite groupCodeActions_accepted by assumption. simpl.
  split; [reflexivity|]. apply Forall_forall. intros a Ha.
  apply list_elem_of_In, in_map_iff in Ha as (y & <- & Hy).
  apply final_command_name. apply owners_subset in Hy.
  rewrite Forall_forall in H. apply (H y). now apply list_elem_of_In.
Qed.

(** *** More on the hover *)

Lemma toTrusted_value obj : value (toTrusted obj) = value obj.
Proof. unfold toTrusted. now destruct (JS.includes "```rust" (value obj)). Qed.

(** X10: given a hover, the enriched hover keeps the range and the text
    of every converted block, in order; every block of it whose text
    holds a rust fence is trusted, and so is every block that comes after
    the converted ones, the action bar. *)
Theorem hover_blocks_kept r :
  exists hover,
    provideHover (Fulfilled (Some r)) = Run [] (Fulfilled (Defined hover))
    /\ range hover = range (asHover r)
    /\ map value (take (length (contents (asHover r))) (contents hover))
       = map value (contents (asHover r))
    /\ Forall (fun block =>
                 JS.includes "```rust" (value block) = true ->
                 isTrusted block = Some true)
              (contents hover)
    /\ Forall (fun block => isTrusted block = Some true)
              (drop (length (contents (asHover r))) (contents hover)).
Proof.
  assert (Hmap : map value (map toTrusted (contents (asHover r)))
                 = map value (contents (asHover r))).
  { rewrite map_map. apply map_ext. apply toTrusted_value. }
  assert (Hfence : Forall (fun block =>
                      JS.includes "```rust" (value block) = true ->
                      isTrusted block = Some true)
                     (map toTrusted (contents (asHover r)))).
  { apply Forall_forall. intros b Hb.
    apply list_elem_of_In, in_map_iff in Hb as (b0 & <- & _).
    unfold toTrusted. destruct (JS.includes "```rust" (value b0)) eqn:E; simpl.
    - reflexivity.
    - congruence. }
  unfold provideHover. simpl. eexists. split; [reflexivity|].
  destruct (hr_actions r); simpl.
  - split; [reflexivity|]. split; [|split].
    + rewrite <- (length_map toTrusted), take_app_length. exact Hmap.
    + apply Forall_app. split; [exact Hfence|]. now repeat constructor.
    + rewrite <- (length_map toTrusted), drop_app_length. now repeat constructor.
  - split; [reflexivity|]. split; [|split].
    + rewrite <- (length_map toTrusted), firstn_all. exact Hmap.
    + exact Hfence.
    + rewrite <- (length_map toTrusted), drop_all. constructor.
Qed.

Lemma stub_title_is_string x :
  isCodeActionWithoutEditsAndCommands Diagnostic_is x = true ->
  JS.is_string (JS.get "title" x) = true.
Proof.
  unfold isCodeActionWithoutEditsAndCommands. intros H.
  repeat (apply andb_true_iff in H as [H ?]). assumption.
Qed.

Lemma group_members_in y values z :
  In y values -> In z (group_members y values) ->
  In z values /\ (grouped y = true -> CodeAction_is z = false).
Proof.
  intros Hy Hz. unfold group_members, members in Hz.
  destruct (JS.primitive (group_of y)).
  - apply filter_In in Hz as [Hin Hc]. split; [exact Hin|]. intros _.
    apply carries_inv in Hc as (Hg & _ & _). unfold grouped in Hg.
    apply andb_true_iff in Hg as [Hg _]. now apply negb_true_iff in Hg.
  - destruct Hz as [<-|[]]. split; [exact Hy|]. intros Hg. unfold grouped in Hg.
    apply andb_true_iff in Hg as [Hg _]. now apply negb_true_iff in Hg.
Qed.

(** X17: when every item is an accepted stub and every truthy group tag
    is a string, every action of the output has a string for title. *)
Theorem output_titles_are_strings document range context values :
  Forall (fun x => accepted x = true /\ CodeAction_is x = false
                   /\ (JS.truthy (JS.get "group" x) = true ->
                       JS.is_string (JS.get "group" x) = true)) values ->
  exists out,
    provideCodeActions document range context (Fulfilled (Some values))
    = Run [] (Fulfilled (Defined out))
    /\ Forall (fun a => JS.is_string (JS.get "title" a) = true) out.
Proof.
  intros H. set (params := codeActionParams document range context).
  assert (Hacc : Forall (fun x => accepted x = true) values).
  { eapply Forall_impl; [exact H|]. simpl. tauto. }
  assert (Hstub : forall z, In z values -> CodeAction_is z = false ->
            JS.is_string (JS.get "title" (stub_action params z)) = true).
  { intros z Hz Hfull. rewrite Forall_forall in Hacc.
    specialize (Hacc z (proj2 (list_elem_of_In _ _) Hz)).
    unfold accepted in Hacc. rewrite Hfull in Hacc.
    simpl. now apply stub_title_is_string. }
  eexists. rewrite provideCodeActions_fulfilled. fold params.
  rewrite groupCodeActions_accepted by assumption. simpl.
  split; [reflexivity|]. apply Forall_forall. intros a Ha.
  apply list_elem_of_In, in_map_iff in Ha as (y & <- & Hy).
  apply owners_subset in Hy.
  rewrite Forall_forall in H.
  destruct (H y (proj2 (list_elem_of_In _ _) Hy)) as (_ & Hfull & Htag).
  unfold final, placeholder. rewrite Hfull.
  destruct (grouped y) eqn:Hg; [|now apply Hstub].
  destruct (group_members y values) as [|z [|z' l]] eqn:E; simpl.
  - apply Htag. unfold grouped, group_of in Hg. now apply andb_true_iff in Hg as [_ ?].
  - assert (Hin : In z (group_members y values)) by (rewrite E; now left).
    destruct (group_members_in y values z Hy Hin) as [Hz Hzf].
    apply (Hstub z Hz (Hzf Hg)).
  - apply Htag. unfold grouped, group_of in Hg. now apply andb_true_iff in Hg as [_ ?].
Qed.

End Client.

(** ** The action bar *)

Lemma join_ext {A} (f g : A -> string) sep (l : list A) :
  Forall (fun x => f x = g x) l -> JS.join sep (map f l) = JS.join sep (map g l).
Proof.
  intros H. f_equal. induction H as [|x l Hx _ IH]; simpl; [reflexivity|].
  now rewrite Hx, IH.
Qed.

Lemma append_assoc (a b c : string) : (a +:+ b) +:+ c = a +:+ b +:+ c.
Proof.
  induction a as [|ch a IH]; [reflexivity|].
  change (String ch ((a +:+ b) +:+ c) = String ch (a +:+ b +:+ c)).
  now rewrite IH.
Qed.

(** C8: when every link has a tooltip, the action bar is the text
    described: groups joined by ["___"], a group being its title and a
    space (nothing for a group without title or with an empty one)
    followed by its links joined by [" | "], a link being
    [[label](command:NAME?ARGS 'TOOLTIP')] with [ARGS] the URI-escaped JSON
    text of the whole argument list and [TOOLTIP] the tooltip of the link,
    which is a field of its own and not the label.  The block is marked
    trusted. *)
Theorem hover_actions_rendering actions :
  Forall (fun group =>
            Forall (fun cmd => cl_tooltip cmd <> None) (clg_commands group))
         actions ->
  value (renderHoverActions actions)
  = described_bar (fun cmd => default "" (cl_tooltip cmd)) actions
  /\ isTrusted (renderHoverActions actions) = Some true.
Proof.
  intros H. split; [|reflexivity].
  unfold renderHoverActions, described_bar. simpl. apply join_ext.
  eapply Forall_impl; [exact H|]. simpl. intros group Hcmds.
  unfold described_group, described_title, nonempty.
  assert (Hlinks : JS.join " | " (map renderCommand (clg_commands group))
                   = JS.join " | "
                       (map (described_link (fun cmd => default "" (cl_tooltip cmd)))
                            (clg_commands group))).
  { apply join_ext. eapply Forall_impl; [exact Hcmds|]. simpl. intros cmd Htip.
    unfold renderCommand, described_link.
    destruct (cl_tooltip cmd); [reflexivity|congruence]. }
  rewrite Hlinks.
  destruct (clg_title group) as [title|]; [|reflexivity].
  destruct (title =? "")%string; reflexivity.
Qed.

(** ** Runs on concrete responses *)

Local Abbreviation sample_provideCodeActions :=
  (provideCodeActions _ _ _ Sample.asTextDocumentIdentifier Sample.asRange
     Sample.asCodeActionContext Sample.CodeAction_is Sample.Diagnostic_is
     Sample.asCodeAction Sample.document Sample.range Sample.context).

Local Abbreviation sample_accepted :=
  (accepted Sample.CodeAction_is Sample.Diagnostic_is).

Local Abbreviation sample_carries := (carries Sample.CodeAction_is).

Local Abbreviation sample_members := (members Sample.CodeAction_is).

(** The example of the specification: A and C share the tag g1. *)
Example grouping_example :
  sample_provideCodeActions
    (Fulfilled (Some [Sample.tagged "A" "g1"; Sample.stub "B"; Sample.tagged "C" "g1"]))
  = Run [] (Fulfilled (Defined
      [group_action (JStr "g1")
         [stub_action Sample.params (Sample.tagged "A" "g1");
          stub_action Sample.params (Sample.tagged "C" "g1")];
       stub_action Sample.params (Sample.stub "B")])).
Proof. reflexivity. Qed.

Lemma hover_actions_rendering_witness :
  value (renderHoverActions Sample.two_groups)
  = "Fixes [Fix 1](command:x.fix?%5B1%5D 'Apply fix')"
    +:+ " | [Fix 2](command:x.fix?%5B2%2C%22a%20b%22%5D 'Apply the other fix')"
    +:+ "___[Go](command:x.go?%5B%5D 'Go to definition')".
Proof.
  apply (proj1 (hover_actions_rendering Sample.two_groups
                  ltac:(repeat constructor; discriminate))).
Defined.

(** The example of the specification: the arguments print as the escaped
    list and the missing tooltip prints as [undefined]. *)
Lemma hover_label_not_tooltip :
  value (renderHoverActions (Sample.fixes None))
  = "Fixes [Fix 1](command:x.fix?%5B1%5D 'undefined')"
  /\ value (renderHoverActions (Sample.fixes None))
     <> "Fixes [Fix 1](command:x.fix?1 'Fix 1')".
Proof. split; [reflexivity|discriminate]. Qed.

(** An empty [actions] list still appends a block. *)
Lemma empty_actions_append_block :
  let r := Sample.hover_response (Some []) in
  exists hover,
    promise (provideHover Sample.asHover (Fulfilled (Some r)))
    = Fulfilled (Defined hover)
    /\ length (contents hover) = S (length (contents (Sample.asHover r)))
    /\ last (contents hover) = Some {| value := ""; isTrusted := Some true |}.
Proof. simpl. eexists. repeat split. Qed.

(** A failed code-action request leaves no line in the log. *)
Lemma code_action_failure_not_logged :
  ~ (exists line,
       In line (logged (sample_provideCodeActions
                          (Rejected (TransportError (JStr "connection closed")))))).
Proof. simpl. intros [line []]. Qed.

(** The output for a single stub, fed to the pass again, is rejected. *)
Lemma rerun_on_output_fails :
  exists out,
    sample_provideCodeActions (Fulfilled (Some [Sample.stub "A"]))
    = Run [] (Fulfilled (Defined out))
    /\ sample_provideCodeActions (Fulfilled (Some out))
       = Run [] (Rejected
                   (AssertionError "We don't expect to receive commands in CodeActions"))
    /\ sample_provideCodeActions (Fulfilled (Some out))
       <> Run [] (Fulfilled (Defined out)).
Proof. eexists. split; [reflexivity|]. split; [reflexivity|discriminate]. Qed.

Lemma group_collapses_to_composite_witness :
  let l1 := [Sample.stub "Z"] in
  let m := Sample.tagged "A" "g1" in
  let l2 := [Sample.stub "B"; Sample.tagged "C" "g1"] in
  exists before others,
    sample_provideCodeActions (Fulfilled (Some l1))
    = Run [] (Fulfilled (Defined before))
    /\ sample_provideCodeActions
         (Fulfilled (Some (List.filter (fun y => negb (sample_carries (JStr "g1") y))
                             (l1 ++ m :: l2))))
       = Run [] (Fulfilled (Defined others))
    /\ length before <= length others
    /\ sample_provideCodeActions (Fulfilled (Some (l1 ++ m :: l2)))
       = Run [] (Fulfilled (Defined
           (take (length before) others
            ++ JObj [("title", JStr "g1");
                     ("command",
                      JObj [("command", JStr "rust-analyzer.applyActionGroup");
                            ("title", JStr "");
                            ("arguments",
                             JArr [JArr
                               [JObj [("label", JStr "A");
                                      ("arguments",
                                       JObj [("id", JUndefined);
                                             ("codeActionParams", Sample.params)])];
                                JObj [("label", JStr "C");
                                      ("arguments",
                                       JObj [("id", JUndefined);
                                             ("codeActionParams", Sample.params)])]]])])]
            :: drop (length before) others))).
Proof.
  intros l1 m l2.
  apply (group_collapses_to_composite _ _ _
           Sample.asTextDocumentIdentifier Sample.asRange Sample.asCodeActionContext
           Sample.CodeAction_is Sample.Diagnostic_is Sample.asCodeAction
           Sample.document Sample.range Sample.context (JStr "g1") l1 m l2).
  - repeat constructor.
  - reflexivity.
  - repeat constructor.
  - simpl. lia.
Defined.

Lemma single_member_unwrapped_witness :
  let l1 := [Sample.stub "Z"] in
  let m := Sample.tagged "A" "g1" in
  let l2 := [Sample.stub "B"; Sample.tagged "C" "g2"] in
  (exists before others,
     sample_provideCodeActions (Fulfilled (Some l1))
     = Run [] (Fulfilled (Defined before))
     /\ sample_provideCodeActions (Fulfilled (Some (l1 ++ l2)))
        = Run [] (Fulfilled (Defined others))
     /\ length before <= length others
     /\ sample_provideCodeActions (Fulfilled (Some (l1 ++ m :: l2)))
        = Run [] (Fulfilled (Defined
            (take (length before) others
             ++ JObj [("title", JStr "A");
                      ("command",
                       JObj [("command", JStr "rust-analyzer.resolveCodeAction");
                             ("title", JStr "A");
                             ("arguments",
                              JArr [JObj [("id", JUndefined);
                                          ("codeActionParams", Sample.params)]])])]
             :: drop (length before) others))))
  /\ (forall m',
        sample_accepted m' = true ->
        grouped Sample.CodeAction_is m' = false ->
        Sample.CodeAction_is m' = false ->
        JS.get "title" m' = JStr "A" -> JS.get "id" m' = JUndefined ->
        sample_provideCodeActions (Fulfilled (Some (l1 ++ m' :: l2)))
        = sample_provideCodeActions (Fulfilled (Some (l1 ++ m :: l2)))).
Proof.
  intros l1 m l2.
  apply (single_member_unwrapped _ _ _
           Sample.asTextDocumentIdentifier Sample.asRange Sample.asCodeActionContext
           Sample.CodeAction_is Sample.Diagnostic_is Sample.asCodeAction
           Sample.document Sample.range Sample.context (JStr "g1") l1 m l2).
  - repeat constructor.
  - reflexivity.
  - repeat constructor.
  - repeat constructor.
Defined.

Lemma ungrouped_order_preserved_witness :
  exists out,
    sample_provideCodeActions (Fulfilled (Some [Sample.stub "A"; Sample.stub "B"]))
    = Run [] (Fulfilled (Defined out))
    /\ out = map (fun x =>
                JObj [("title", JS.get "title" x);
                      ("command",
                       JObj [("command", JStr "rust-analyzer.resolveCodeAction");
                             ("title", JS.get "title" x);
                             ("arguments",
                              JArr [JObj [("id", JS.get "id" x);
                                          ("codeActionParams", Sample.params)]])])])
             [Sample.stub "A"; Sample.stub "B"]
    /\ Forall (fun a => JS.get "edit" a = JUndefined) out.
Proof.
  apply (ungrouped_order_preserved _ _ _
           Sample.asTextDocumentIdentifier Sample.asRange Sample.asCodeActionContext
           Sample.CodeAction_is Sample.Diagnostic_is Sample.asCodeAction
           Sample.document Sample.range Sample.context
           [Sample.stub "A"; Sample.stub "B"]).
  repeat constructor.
Defined.

Lemma malformed_item_asserts_witness :
  let bad := JObj [("title", JStr "B"); ("command", JStr "x.run")] in
  exists explanation,
    sample_provideCodeActions (Fulfilled (Some [Sample.stub "A"; bad]))
    = Run [] (Rejected (AssertionError explanation)).
Proof.
  intros bad.
  apply (malformed_item_asserts _ _ _
           Sample.asTextDocumentIdentifier Sample.asRange Sample.asCodeActionContext
           Sample.CodeAction_is Sample.Diagnostic_is Sample.asCodeAction
           Sample.document Sample.range Sample.context
           [Sample.stub "A"; bad] bad).
  - right. left. reflexivity.
  - left. reflexivity.
Defined.

Lemma rerun_rejects_own_output_witness :
  let values := [Sample.stub "A"] in
  (Exists (fun x => Sample.CodeAction_is x = false) values ->
   exists out explanation,
     sample_provideCodeActions (Fulfilled (Some values))
     = Run [] (Fulfilled (Defined out))
     /\ sample_provideCodeActions (Fulfilled (Some out))
        = Run [] (Rejected (AssertionError explanation)))
  /\ (Forall (fun x => Sample.CodeAction_is x = true) values ->
      sample_provideCodeActions (Fulfilled (Some values))
      = Run [] (Fulfilled (Defined (map Sample.asCodeAction values)))).
Proof.
  intros values.
  apply (rerun_rejects_own_output _ _ _
           Sample.asTextDocumentIdentifier Sample.asRange Sample.asCodeActionContext
           Sample.CodeAction_is Sample.Diagnostic_is Sample.asCodeAction
           Sample.document Sample.range Sample.context values).
  repeat constructor.
Defined.

Lemma empty_tag_ungrouped_witness :
  let m := Sample.tagged "A" "" in
  let action :=
    JObj [("title", JStr "A");
          ("command",
           JObj [("command", JStr "rust-analyzer.resolveCodeAction");
                 ("title", JStr "A");
                 ("arguments",
                  JArr [JObj [("id", JUndefined);
                              ("codeActionParams", Sample.params)]])])] in
  (forall st,
     step Sample.CodeAction_is Sample.Diagnostic_is Sample.asCodeAction
       Sample.params st m
     = Return {| result := result st ++ [action]; groups := groups st |})
  /\ (forall l1 l2,
        Forall (fun x => sample_accepted x = true) (l1 ++ l2) ->
        exists before others,
          sample_provideCodeActions (Fulfilled (Some l1))
          = Run [] (Fulfilled (Defined before))
          /\ sample_provideCodeActions (Fulfilled (Some (l1 ++ l2)))
             = Run [] (Fulfilled (Defined others))
          /\ length before <= length others
          /\ sample_provideCodeActions (Fulfilled (Some (l1 ++ m :: l2)))
             = Run [] (Fulfilled (Defined
                 (take (length before) others ++ action
                  :: drop (length before) others)))).
Proof.
  intros m action.
  apply (empty_tag_ungrouped _ _ _
           Sample.asTextDocumentIdentifier Sample.asRange Sample.asCodeActionContext
           Sample.CodeAction_is Sample.Diagnostic_is Sample.asCodeAction
           Sample.document Sample.range Sample.context m); reflexivity.
Defined.

(** ** More on the helpers *)

(** X11: [toTrusted] keeps the text of a block, is idempotent, and the
    block it returns is trusted exactly when the text holds a rust fence
    or the block was trusted already. *)
Theorem toTrusted_laws obj :
  value (toTrusted obj) = value obj
  /\ toTrusted (toTrusted obj) = toTrusted obj
  /\ (isTrusted (toTrusted obj) = Some true
      <-> JS.includes "```rust" (value obj) = true \/ isTrusted obj = Some true).
Proof.
  unfold toTrusted.
  destruct (JS.includes "```rust" (value obj)) eqn:E; simpl.
  - rewrite E. repeat split; auto.
  - rewrite E. repeat split; auto. intros [H|H]; [discriminate|exact H].
Qed.

(** X12: the semantic-tokens middleware never resolves to [undefined]:
    that answer becomes the error "busy"; any other answer of [next] is
    returned as it is and a failure of [next] is rethrown. *)
Theorem semantic_tokens_never_undefined {A} (next : settled (nullable A)) :
  provideDocumentSemanticTokens next <> Resolves IsUndefined
  /\ (forall res,
        provideDocumentSemanticTokens next = Resolves res
        <-> next = Fulfilled res /\ res <> IsUndefined)
  /\ (provideDocumentSemanticTokens next = Rejects (ErrorObject "busy")
      <-> next = Fulfilled IsUndefined)
  /\ (forall e,
        provideDocumentSemanticTokens next = Rejects (Awaited e)
        <-> next = Rejected e).
Proof.
  destruct next as [[| |a]|e0]; simpl; repeat split;
    try discriminate; try congruence;
    try (intros [H1 H2]; congruence);
    try (intros H; injection H as <-; split; [reflexivity|discriminate]).
Qed.

Lemma assoc_set_assoc_eq k v props : JS.assoc k (JS.set_assoc k v props) = v.
Proof.
  induction props as [|[k' v'] props IH]; simpl.
  - now rewrite String.eqb_refl.
  - destruct (k =? k')%string eqn:E; simpl; now rewrite E.
Qed.

Lemma assoc_set_assoc_ne k k' v props :
  k <> k' -> JS.assoc k' (JS.set_assoc k v props) = JS.assoc k' props.
Proof.
  intros Hne. induction props as [|[k0 v0] props IH]; simpl.
  - apply String.eqb_neq in Hne. rewrite String.eqb_sym in Hne. now rewrite Hne.
  - destruct (k =? k0)%string eqn:E; simpl.
    + apply String.eqb_eq in E. subst k0.
      apply String.eqb_neq in Hne. rewrite String.eqb_sym in Hne. now rewrite Hne.
    + now rewrite IH.
Qed.

Lemma set_assoc_id k v props :
  JS.assoc k props = v -> v <> JUndefined -> JS.set_assoc k v props = props.
Proof.
  intros Hv Hdef. induction props as [|[k' v'] props IH]; simpl in *.
  - congruence.
  - destruct (k =? k')%string; [now subst|]. now rewrite IH.
Qed.

Lemma fill_shape props :
  plain_capabilities (JObj props) = true ->
  exists eprops,
    nullish_coalescing (JS.get "experimental" (JObj props)) (JObj []) = JObj eprops
    /\ forall k, JS.assoc k eprops = JS.get k (JS.get "experimental" (JObj props)).
Proof.
  unfold plain_capabilities. simpl.
  destruct (JS.assoc "experimental" props); try discriminate; intros _; simpl; eauto.
Qed.

(** X13: after [fillClientCapabilities] the four experimental flags are
    [true]; every other experimental property and every other capability
    reads as before. *)
Theorem capabilities_flags_set capabilities :
  plain_capabilities capabilities = true ->
  let filled := fillClientCapabilities capabilities in
  Forall (fun flag => JS.get flag (JS.get "experimental" filled) = JBool true)
         experimental_flags
  /\ (forall k, ~ In k experimental_flags ->
        JS.get k (JS.get "experimental" filled)
        = JS.get k (JS.get "experimental" capabilities))
  /\ (forall k, k <> "experimental" -> JS.get k filled = JS.get k capabilities).
Proof.
  intros Hplain filled. subst filled.
  destruct capabilities as [| | | | | |props]; try discriminate.
  destruct (fill_shape props Hplain) as (eprops & Heq & Hread).
  unfold fillClientCapabilities. rewrite Heq. simpl.
  rewrite assoc_set_assoc_eq. simpl. split; [|split].
  - repeat constructor;
      repeat (first [ apply assoc_set_assoc_eq
                    | rewrite assoc_set_assoc_ne by discriminate ]).
  - intros k Hk. simpl in Hk.
    rewrite !assoc_set_assoc_ne by (intros E; apply Hk; subst k; intuition).
    apply Hread.
  - intros k Hk. now apply assoc_set_assoc_ne.
Qed.

(** X14: announcing the capabilities twice is the same as announcing
    them once. *)
Theorem capabilities_fill_idempotent capabilities :
  plain_capabilities capabilities = true ->
  fillClientCapabilities (fillClientCapabilities capabilities)
  = fillClientCapabilities capabilities.
Proof.
  intros Hplain.
  destruct capabilities as [| | | | | |props]; try discriminate.
  destruct (fill_shape props Hplain) as (eprops & Heq & _).
  unfold fillClientCapabilities at 2 3. rewrite Heq. simpl.
  set (flags := JS.set_assoc "hoverActions" (JBool true)
                  (JS.set_assoc "resolveCodeAction" (JBool true)
                     (JS.set_assoc "codeActionGroup" (JBool true)
                        (JS.set_assoc "snippetTextEdit" (JBool true) eprops)))).
  unfold fillClientCapabilities. simpl. rewrite assoc_set_assoc_eq. simpl.
  assert (Hflags :
    JS.set_assoc "hoverActions" (JBool true)
      (JS.set_assoc "resolveCodeAction" (JBool true)
         (JS.set_assoc "codeActionGroup" (JBool true)
            (JS.set_assoc "snippetTextEdit" (JBool true) flags))) = flags).
  { rewrite (set_assoc_id "snippetTextEdit" (JBool true) flags);
      [|unfold flags; now rewrite !assoc_set_assoc_ne, assoc_set_assoc_eq by discriminate
       |discriminate].
    rewrite (set_assoc_id "codeActionGroup" (JBool true) flags);
      [|unfold flags; now rewrite !assoc_set_assoc_ne, assoc_set_assoc_eq by discriminate
       |discriminate].
    rewrite (set_assoc_id "resolveCodeAction" (JBool true) flags);
      [|unfold flags; now rewrite !assoc_set_assoc_ne, assoc_set_assoc_eq by discriminate
       |discriminate].
    apply set_assoc_id; [|discriminate].
    unfold flags. apply assoc_set_assoc_eq. }
  rewrite Hflags. f_equal.
  apply set_assoc_id; [apply assoc_set_assoc_eq|discriminate].
Qed.

Lemma join_app sep (xs ys : list string) :
  xs <> [] -> ys <> [] ->
  JS.join sep (xs ++ ys) = JS.join sep xs +:+ sep +:+ JS.join sep ys.
Proof.
  intros Hxs Hys. induction xs as [|x [|x' xs] IH]; [congruence| |].
  - destruct ys; [congruence|reflexivity].
  - change (JS.join sep ((x :: x' :: xs) ++ ys))
      with (x +:+ sep +:+ JS.join sep ((x' :: xs) ++ ys)).
    rewrite IH by discriminate.
    change (JS.join sep (x :: x' :: xs)) with (x +:+ sep +:+ JS.join sep (x' :: xs)).
    now rewrite !append_assoc.
Qed.

(** X15: the action bar of two non-empty lists of groups put together is
    the bar of the first, the separator ["___"] and the bar of the
    second. *)
Theorem action_bar_concatenates a b :
  a <> [] -> b <> [] ->
  value (renderHoverActions (a ++ b))
  = value (renderHoverActions a) +:+ "___" +:+ value (renderHoverActions b).
Proof.
  intros Ha Hb. unfold renderHoverActions. simpl. rewrite map_app.
  apply join_app.
  - destruct a; [congruence|discriminate].
  - destruct b; [congruence|discriminate].
Qed.

Lemma string_forallb_app p a b :
  string_forallb p (a +:+ b) = string_forallb p a && string_forallb p b.
Proof.
  induction a as [|c a IH]; [reflexivity|].
  change (string_forallb p (String c (a +:+ b))
          = string_forallb p (String c a) && string_forallb p b).
  simpl. now rewrite IH, andb_assoc.
Qed.

Lemma encoded_char_safe c :
  string_forallb uri_safe
    (if JS.uri_unreserved (nat_of_ascii c) then String c ""
     else "%" +:+ JS.hex2 true (nat_of_ascii c)) = true.
Proof.
  destruct c as [b0 b1 b2 b3 b4 b5 b6 b7].
  destruct b0, b1, b2, b3, b4, b5, b6, b7; vm_compute; reflexivity.
Qed.

Lemma encodeURIComponent_safe s :
  string_forallb uri_safe (JS.encodeURIComponent s) = true.
Proof.
  induction s as [|c s IH]; [reflexivity|].
  change (JS.encodeURIComponent (String c s))
    with ((if JS.uri_unreserved (nat_of_ascii c) then String c ""
           else "%" +:+ JS.hex2 true (nat_of_ascii c))
          +:+ JS.encodeURIComponent s).
  now rewrite string_forallb_app, encoded_char_safe, IH.
Qed.

(** X16: in a rendered link the text between [?] and the tooltip is made
    of URI-unreserved characters and percent signs only: no space, quote,
    bracket or brace of the JSON text of the arguments reaches the
    markup. *)
Theorem link_query_is_escaped cmd :
  exists query,
    renderCommand cmd
    = "[" +:+ cl_title cmd +:+ "](command:" +:+ cl_command cmd +:+ "?"
      +:+ query +:+ " '" +:+ JS.toString (cl_tooltip cmd) +:+ "')"
    /\ string_forallb uri_safe query = true.
Proof.
  eexists. split; [reflexivity|]. apply encodeURIComponent_safe.
Qed.

(** ** More runs on concrete responses *)

Lemma first_offender_explains_witness :
  let bad := JObj [("title", JStr "B");
                   ("command", JObj [("title", JStr "Run");
                                     ("command", JStr "x.run")])] in
  sample_provideCodeActions (Fulfilled (Some ([Sample.stub "A"] ++ bad :: [JNull])))
  = Run [] (Rejected (AssertionError
      "We don't expect to receive commands in CodeActions")).
Proof.
  intros bad.
  apply (first_offender_explains _ _ _
           Sample.asTextDocumentIdentifier Sample.asRange Sample.asCodeActionContext
           Sample.CodeAction_is Sample.Diagnostic_is Sample.asCodeAction
           Sample.document Sample.range Sample.context
           [Sample.stub "A"] bad [JNull]).
  - repeat constructor.
  - reflexivity.
Defined.

Lemma output_length_bound_witness :
  let values := [Sample.tagged "A" "g1"; Sample.stub "B"; Sample.tagged "C" "g1"] in
  exists out,
    sample_provideCodeActions (Fulfilled (Some values))
    = Run [] (Fulfilled (Defined out))
    /\ length out <= 3
    /\ length out + length (sample_members (JStr "g1") values) <= 3 + 1.
Proof.
  intros values.
  apply (output_length_bound _ _ _
           Sample.asTextDocumentIdentifier Sample.asRange Sample.asCodeActionContext
           Sample.CodeAction_is Sample.Diagnostic_is Sample.asCodeAction
           Sample.document Sample.range Sample.context values (JStr "g1")).
  repeat constructor.
Defined.

Lemma disjoint_tags_concatenate_witness :
  let l1 := [Sample.tagged "A" "g1"; Sample.tagged "B" "g1"] in
  let l2 := [Sample.tagged "C" "g2"; Sample.stub "D"] in
  exists out1 out2,
    sample_provideCodeActions (Fulfilled (Some l1))
    = Run [] (Fulfilled (Defined out1))
    /\ sample_provideCodeActions (Fulfilled (Some l2))
       = Run [] (Fulfilled (Defined out2))
    /\ sample_provideCodeActions (Fulfilled (Some (l1 ++ l2)))
       = Run [] (Fulfilled (Defined (out1 ++ out2))).
Proof.
  intros l1 l2.
  apply (disjoint_tags_concatenate _ _ _
           Sample.asTextDocumentIdentifier Sample.asRange Sample.asCodeActionContext
           Sample.CodeAction_is Sample.Diagnostic_is Sample.asCodeAction
           Sample.document Sample.range Sample.context l1 l2).
  - repeat constructor.
  - repeat constructor.
Defined.

Lemma stub_fields_read_witness :
  sample_provideCodeActions
    (Fulfilled (Some [JObj [("title", JStr "A"); ("kind", JStr "refactor");
                            ("group", JStr "g1")]]))
  = sample_provideCodeActions (Fulfilled (Some [Sample.tagged "A" "g1"])).
Proof.
  apply (stub_fields_read _ _ _
           Sample.asTextDocumentIdentifier Sample.asRange Sample.asCodeActionContext
           Sample.CodeAction_is Sample.Diagnostic_is Sample.asCodeAction
           Sample.document Sample.range Sample.context).
  constructor; [|constructor]. right. repeat split.
Defined.

Lemma full_action_keeps_slot_witness :
  let l1 := [Sample.tagged "A" "g1"] in
  let m := JObj [("title", JStr "Fix"); ("edit", JObj [("changes", JObj [])]);
                 ("group", JStr "g1")] in
  let l2 := [Sample.tagged "C" "g1"] in
  exists before others,
    sample_provideCodeActions (Fulfilled (Some l1))
    = Run [] (Fulfilled (Defined before))
    /\ sample_provideCodeActions (Fulfilled (Some (l1 ++ l2)))
       = Run [] (Fulfilled (Defined others))
    /\ length before <= length others
    /\ sample_provideCodeActions (Fulfilled (Some (l1 ++ m :: l2)))
       = Run [] (Fulfilled (Defined
           (take (length before) others ++ Sample.asCodeAction m
            :: drop (length before) others))).
Proof.
  intros l1 m l2.
  apply (full_action_keeps_slot _ _ _
           Sample.asTextDocumentIdentifier Sample.asRange Sample.asCodeActionContext
           Sample.CodeAction_is Sample.Diagnostic_is Sample.asCodeAction
           Sample.document Sample.range Sample.context l1 m l2).
  - repeat constructor.
  - reflexivity.
  - reflexivity.
Defined.

Lemma groups_invariant_witness :
  exists st,
    loop Sample.CodeAction_is Sample.Diagnostic_is Sample.asCodeAction Sample.params
      {| result := []; groups := [] |}
      [Sample.tagged "A" "g1"; Sample.stub "B"; Sample.tagged "C" "g1"]
    = Return st
    /\ Forall (fun kv => index (snd kv) < length (result st)
                         /\ items (snd kv) <> []
                         /\ JS.truthy (fst kv) = true)
              (groups st).
Proof.
  eexists. split; [reflexivity|].
  apply (groups_invariant Sample.CodeAction_is Sample.Diagnostic_is
           Sample.asCodeAction Sample.params
           [Sample.tagged "A" "g1"; Sample.stub "B"; Sample.tagged "C" "g1"]).
  reflexivity.
Defined.

Lemma stub_actions_have_commands_witness :
  exists out,
    sample_provideCodeActions
      (Fulfilled (Some [Sample.tagged "A" "g1"; Sample.stub "B"; Sample.tagged "C" "g1"]))
    = Run [] (Fulfilled (Defined out))
    /\ Forall (fun a =>
                 JS.get "command" (JS.get "command" a)
                 = JStr "rust-analyzer.resolveCodeAction"
                 \/ JS.get "command" (JS.get "command" a)
                    = JStr "rust-analyzer.applyActionGroup")
              out.
Proof.
  apply (stub_actions_have_commands _ _ _
           Sample.asTextDocumentIdentifier Sample.asRange Sample.asCodeActionContext
           Sample.CodeAction_is Sample.Diagnostic_is Sample.asCodeAction
           Sample.document Sample.range Sample.context).
  repeat constructor.
Defined.

Lemma capabilities_flags_set_witness :
  let capabilities :=
    JObj [("workspace", JObj []);
          ("experimental", JObj [("statusNotification", JBool true)])] in
  let filled := fillClientCapabilities capabilities in
  Forall (fun flag => JS.get flag (JS.get "experimental" filled) = JBool true)
         experimental_flags
  /\ (forall k, ~ In k experimental_flags ->
        JS.get k (JS.get "experimental" filled)
        = JS.get k (JS.get "experimental" capabilities))
  /\ (forall k, k <> "experimental" -> JS.get k filled = JS.get k capabilities).
Proof.
  intros capabilities.
  apply (capabilities_flags_set capabilities). reflexivity.
Defined.

Lemma capabilities_fill_idempotent_witness :
  let capabilities := JObj [("workspace", JObj [])] in
  fillClientCapabilities (fillClientCapabilities capabilities)
  = fillClientCapabilities capabilities.
Proof.
  intros capabilities.
  apply (capabilities_fill_idempotent capabilities). reflexivity.
Defined.

Lemma action_bar_concatenates_witness :
  let a := Sample.fixes (Some "Apply fix") in
  let b := Sample.fixes None in
  value (renderHoverActions (a ++ b))
  = value (renderHoverActions a) +:+ "___" +:+ value (renderHoverActions b).
Proof.
  intros a b. apply (action_bar_concatenates a b); discriminate.
Defined.

Lemma output_titles_are_strings_witness :
  exists out,
    sample_provideCodeActions
      (Fulfilled (Some [Sample.tagged "A" "g1"; Sample.stub "B"; Sample.tagged "C" "g1"]))
    = Run [] (Fulfilled (Defined out))
    /\ Forall (fun a => JS.is_string (JS.get "title" a) = true) out.
Proof.
  apply (output_titles_are_strings _ _ _
           Sample.asTextDocumentIdentifier Sample.asRange Sample.asCodeActionContext
           Sample.CodeAction_is Sample.Diagnostic_is Sample.asCodeAction
           Sample.document Sample.range Sample.context).
  repeat constructor; intros; discriminate.
Defined.
